(** * Upload queue controller of the FileUploader component

    A shallow embedding of [FileUploader.tsx]: [validateFile], the
    synchronous part of [handleFiles] that builds the new queue entries,
    the asynchronous upload loop of [handleFiles] as a labelled transition
    system over the React state [uploadQueue], and [removeFromQueue].

    The environment of the component appears as the labels of the
    transition system: the files handed to [handleFiles], the outcome of
    each awaited [uploadFile], the running of a timer callback, and the
    row a user dismisses.  [uploadFile] and [formatFileSize] live in
    [lib/api] and [lib/utils]; the first is only observed through its
    outcomes, the second is a parameter. *)

From Stdlib Require Import ZArith String Ascii.
From stdpp Require Import base tactics option list numbers strings gmap.

Local Open Scope string_scope.
Local Open Scope list_scope.

(** ** Data model *)

(** The part of a DOM [File] the component reads: [file.name], [file.size]. *)
Module File.
Record t : Type := mk { name : string; size : Z }.
End File.

(** [UploadProgress["status"]] of [types/index.ts]. *)
Module Status.
Inductive t : Type :=
  pending | uploading | processing | completed | error.
End Status.

(** [interface UploadProgress] of [types/index.ts]; [error : string | null]. *)
Record UploadProgress : Type := mkItem {
  file : File.t;
  progress : Z;
  status : Status.t;
  error : option string
}.

Global Instance File_eq_dec : EqDecision File.t.
Proof. solve_decision. Defined.
Global Instance Status_eq_dec : EqDecision Status.t.
Proof. solve_decision. Defined.
Global Instance UploadProgress_eq_dec : EqDecision UploadProgress.
Proof. solve_decision. Defined.

(** ** String helpers used by [validateFile] *)

(** [s.split(sep)] for a one-character separator: always at least one
    segment, empty segments are kept. *)
Fixpoint split (sep : ascii) (s : string) : list string :=
  match s with
  | EmptyString => [EmptyString]
  | String c rest =>
      if Ascii.eqb c sep then EmptyString :: split sep rest
      else match split sep rest with
           | seg :: segs => String c seg :: segs
           | [] => [String c EmptyString]
           end
  end.

(** [Array.prototype.pop]'s return value: the last element, [undefined]
    (here [None]) on an empty array. *)
Definition pop (segs : list string) : option string := last segs.

(** [toLowerCase] on one code unit; the letters A-Z are the only ones whose
    lower-case form can occur in [ALLOWED_EXTENSIONS]. *)
Definition lower_ascii (c : ascii) : ascii :=
  let n := nat_of_ascii c in
  if Nat.leb 65 n && Nat.leb n 90 then ascii_of_nat (n + 32) else c.

Fixpoint toLowerCase (s : string) : string :=
  match s with
  | EmptyString => EmptyString
  | String c rest => String (lower_ascii c) (toLowerCase rest)
  end.

(** [arr.join(sep)]. *)
Definition join (sep : string) (arr : list string) : string :=
  String.concat sep arr.

(** [arr.includes(x)] on strings. *)
Definition includes (arr : list string) (x : string) : bool :=
  existsb (String.eqb x) arr.

(** ** Constants *)

Definition ALLOWED_EXTENSIONS : list string :=
  [".csv"; ".xlsx"; ".xls"; ".pdf"; ".png"; ".jpg"; ".jpeg"].

Definition MAX_FILE_SIZE : Z := (50 * 1024 * 1024)%Z.

(** The value thrown by a failing [uploadFile]: an [Error] instance with
    its [message], or any other value. *)
Inductive Thrown : Type :=
| ThrownError (message : string)
| ThrownOther.

(** [error instanceof Error ? error.message : "Upload failed"]. *)
Definition failure_message (e : Thrown) : string :=
  match e with
  | ThrownError message => message
  | ThrownOther => "Upload failed"
  end.

(** Truthiness of a [string | null] value, as tested by [if (error)]. *)
Definition truthy (v : option string) : bool :=
  match v with
  | None => false
  | Some s => negb (String.eqb s "")
  end.

(** ** Array helpers with the element index *)

(** [prev.map((item, idx) => idx === k ? f(item) : item)]. *)
Definition map_at {A} (k : nat) (f : A → A) (prev : list A) : list A :=
  imap (λ idx item, if Nat.eqb idx k then f item else item) prev.

(** [prev.filter((_, idx) => p(idx))], with [idx] counted from [start]. *)
Fixpoint filter_idx_from {A} (p : nat → bool) (start : nat) (prev : list A)
  : list A :=
  match prev with
  | [] => []
  | x :: rest =>
      if p start then x :: filter_idx_from p (S start) rest
      else filter_idx_from p (S start) rest
  end.

Definition filter_idx {A} (p : nat → bool) (prev : list A) : list A :=
  filter_idx_from p 0 prev.

(** ** The four transitions written by [handleFiles]: object spreads
    [{ ...item, status: ..., progress: ... }]. *)

Definition toUploading (item : UploadProgress) : UploadProgress :=
  {| file := file item; progress := 50%Z; status := Status.uploading;
     error := error item |}.

Definition toProcessing (item : UploadProgress) : UploadProgress :=
  {| file := file item; progress := 75%Z; status := Status.processing;
     error := error item |}.

Definition toCompleted (item : UploadProgress) : UploadProgress :=
  {| file := file item; progress := 100%Z; status := Status.completed;
     error := error item |}.

Definition toError (e : Thrown) (item : UploadProgress) : UploadProgress :=
  {| file := file item; progress := 0%Z; status := Status.error;
     error := Some (failure_message e) |}.

(** [removeFromQueue]: [prev.filter((_, idx) => idx !== index)]; [index] is
    any integer, array positions are naturals. *)
Definition removeFromQueue (index : Z) (prev : list UploadProgress)
  : list UploadProgress :=
  filter_idx (λ idx, negb (Z.eqb (Z.of_nat idx) index)) prev.

(** ** [types/index.ts] *)

Module FileType.
Inductive t : Type := csv | excel | pdf | image.
End FileType.

(** [FileMetadata["status"]]. *)
Module FileStatus.
Inductive t : Type := uploading | processing | completed | failed.
End FileStatus.

(** A string whose length and positions matter: the sequence of its
    UTF-16 code units, as [length] and [substring] count them. *)
Abbreviation CodeUnits := (list N) (only parsing).

(** [interface FileMetadata]; [metadata: Record<string, any>] is only ever
    built empty here and is kept as its list of entries. *)
Module FileMetadata.
Record t : Type := mk {
  id : string;
  filename : string;
  fileType : FileType.t;
  fileSize : Z;
  status : FileStatus.t;
  aiSummary : option CodeUnits;
  metadata : list (string * string);
  createdAt : string
}.
End FileMetadata.

(** [FILE_EXTENSION_MAP], with its own keys. *)
Definition FILE_EXTENSION_MAP : gmap string FileType.t :=
  list_to_map
    [(".csv", FileType.csv); (".xlsx", FileType.excel);
     (".xls", FileType.excel); (".pdf", FileType.pdf);
     (".png", FileType.image); (".jpg", FileType.image);
     (".jpeg", FileType.image)].

(** ** [FileCard]: the preview of the AI summary

    [{file.aiSummary && (<p>{file.aiSummary.substring(0, 100)}
    {file.aiSummary.length > 100 && "..."}</p>)}]: nothing for [null] and
    for the empty string, else the text of the two children one after
    the other. *)
Definition three_dots : CodeUnits := [46; 46; 46]%N.

Definition summary_preview (aiSummary : option CodeUnits)
  : option CodeUnits :=
  match aiSummary with
  | None | Some [] => None
  | Some text =>
      Some (take 100 text
            ++ (if Nat.ltb 100 (length text) then three_dots else []))
  end.

(** ** [WorkspacePage] *)

(** [handleUploadComplete]; [createdAt] is the
    [new Date().toISOString()] of the call. *)
Definition handleUploadComplete (createdAt fileId : string)
    (prev : list FileMetadata.t) : list FileMetadata.t :=
  {| FileMetadata.id := fileId;
     FileMetadata.filename := "Nuovo file";
     FileMetadata.fileType := FileType.csv;
     FileMetadata.fileSize := 0;
     FileMetadata.status := FileStatus.completed;
     FileMetadata.aiSummary := None;
     FileMetadata.metadata := [];
     FileMetadata.createdAt := createdAt |} :: prev.

(** [uploadedFiles] after the calls of [onUploadComplete] in [calls], each
    an identifier with the time of the call, starting from the empty
    list. *)
Definition uploadedFiles_after (calls : list (string * string))
  : list FileMetadata.t :=
  fold_left (λ prev call, handleUploadComplete call.2 call.1 prev) calls [].

(** [uploadedFiles.find((file) => file.id === selectedFileId)], with
    [selectedFileId : string | null]. *)
Definition selectedFile (selectedFileId : option string)
    (uploadedFiles : list FileMetadata.t) : option FileMetadata.t :=
  List.find (λ file, bool_decide (Some (FileMetadata.id file) = selectedFileId))
    uploadedFiles.

(** [projectId={selectedProjectId || undefined}]. *)
Definition uploader_projectId (selectedProjectId : option string)
  : option string :=
  if truthy selectedProjectId then selectedProjectId else None.

Section Controller.

(** [formatFileSize] of [lib/utils], [projectId] and the presence of the
    optional [onUploadComplete] prop are supplied from outside the
    component. *)
Variable formatFileSize : Z → string.
Variable projectId : option string.
Variable hasOnUploadComplete : bool.

(** *** [validateFile] *)

Definition fileExt (f : File.t) : string :=
  "." +:+ match pop (split "."%char (File.name f)) with
          | Some seg => toLowerCase seg
          | None => "undefined"
          end.

Definition type_error : string :=
  "File type not supported. Allowed: " +:+ join ", " ALLOWED_EXTENSIONS.

Definition size_error : string :=
  "File too large. Maximum size: " +:+ formatFileSize MAX_FILE_SIZE.

Definition validateFile (f : File.t) : option string :=
  if negb (includes ALLOWED_EXTENSIONS (fileExt f)) then Some type_error
  else if (File.size f >? MAX_FILE_SIZE)%Z then Some size_error
  else None.

(** The two rules of [validateFile] as one test. *)
Definition rejected (f : File.t) : bool :=
  negb (includes ALLOWED_EXTENSIONS (fileExt f))
  || (File.size f >? MAX_FILE_SIZE)%Z.

(** The entry [handleFiles] pushes for a candidate file. *)
Definition entry_of (f : File.t) : UploadProgress :=
  if rejected f
  then mkItem f 0 Status.error
         (Some (if includes ALLOWED_EXTENSIONS (fileExt f)
                then size_error else type_error))
  else mkItem f 0 Status.pending None.

(** *** [handleFiles], synchronous part: the [forEach] that fills
    [validFiles] and [newQueue] by [push]. *)

Definition classify (acc : list File.t * list UploadProgress) (f : File.t)
  : list File.t * list UploadProgress :=
  let '(validFiles, newQueue) := acc in
  let err := validateFile f in
  if truthy err then
    (validFiles,
     newQueue ++ [{| file := f; progress := 0%Z; status := Status.error;
                     error := err |}])
  else
    (validFiles ++ [f],
     newQueue ++ [{| file := f; progress := 0%Z; status := Status.pending;
                     error := None |}]).

Definition scan (files : list File.t) : list File.t * list UploadProgress :=
  fold_left classify files ([], []).

Definition validFiles (files : list File.t) : list File.t := (scan files).1.
Definition newQueue (files : list File.t) : list UploadProgress :=
  (scan files).2.

(** *** The asynchronous part of [handleFiles] as a transition system

    React applies the updater functions passed to [setUploadQueue] one
    after the other to the current state, so the state after a call is
    the updater applied to the state before it.  Code between two
    suspension points ([await], timer callbacks, DOM events) runs without
    interleaving. *)

(** Calls that leave the component, and the settling of an awaited
    upload (with the [fileId] of the response when it is fulfilled), in
    the order they happen. *)
Inductive Event : Type :=
| CallUploadFile (f : File.t) (project : option string)
| UploadSettled (f : File.t) (response : option string)
| CallOnUploadComplete (fileId : string).

(** An invocation of [handleFiles] suspended at [await uploadFile(...)]:
    its [validFiles], the [uploadQueue.length] it captured, and [i]. *)
Record Invocation : Type := mkInvocation {
  inv_validFiles : list File.t;
  inv_base : nat;
  inv_i : nat
}.

(** A callback registered by [setTimeout(..., 1000)] with the bindings of
    the loop body it closes over. *)
Record Timer : Type := mkTimer {
  tm_queueIndex : nat;
  tm_file : File.t;
  tm_fileId : string
}.

Record Sys : Type := mkSys {
  uploadQueue : list UploadProgress;
  awaiting : list Invocation;
  timers : list Timer;
  trace : list Event
}.

Definition init : Sys :=
  {| uploadQueue := []; awaiting := []; timers := []; trace := [] |}.

(** [setUploadQueue(updater)]. *)
Definition setUploadQueue
    (updater : list UploadProgress → list UploadProgress) (s : Sys) : Sys :=
  {| uploadQueue := updater (uploadQueue s); awaiting := awaiting s;
     timers := timers s; trace := trace s |}.

(** A call leaving the component, or an awaited upload settling. *)
Definition emit (evs : list Event) (s : Sys) : Sys :=
  {| uploadQueue := uploadQueue s; awaiting := awaiting s;
     timers := timers s; trace := trace s ++ evs |}.

(** Suspension of an invocation at its [await]. *)
Definition suspend (inv : Invocation) (s : Sys) : Sys :=
  {| uploadQueue := uploadQueue s; awaiting := awaiting s ++ [inv];
     timers := timers s; trace := trace s |}.

(** The suspended invocation [n] is taken up again. *)
Definition wake (n : nat) (s : Sys) : Sys :=
  {| uploadQueue := uploadQueue s; awaiting := delete n (awaiting s);
     timers := timers s; trace := trace s |}.

(** [setTimeout(callback, 1000)]. *)
Definition setTimeout (tm : Timer) (s : Sys) : Sys :=
  {| uploadQueue := uploadQueue s; awaiting := awaiting s;
     timers := timers s ++ [tm]; trace := trace s |}.

(** The timer [n] is due and is removed from the pending ones. *)
Definition expire (n : nat) (s : Sys) : Sys :=
  {| uploadQueue := uploadQueue s; awaiting := awaiting s;
     timers := delete n (timers s); trace := trace s |}.

(** The updater [(prev) => [...prev, ...newQueue]]. *)
Definition appendNew (new prev : list UploadProgress)
  : list UploadProgress := prev ++ new.

(** The loop from its test [i < validFiles.length] up to the [await]:
    the [uploading] update at [queueIndex = base + i] and the call of
    [uploadFile]; past the last file the invocation ends. *)
Definition iterate (valid : list File.t) (base i : nat) (s : Sys) : Sys :=
  match valid !! i with
  | None => s
  | Some f =>
      let queueIndex := base + i in
      suspend (mkInvocation valid base i)
        (emit [CallUploadFile f projectId]
           (setUploadQueue (map_at queueIndex toUploading) s))
  end.

(** What can happen next: a call of [handleFiles] (from a drop or the
    file input), the upload awaited by the [n]-th suspended invocation
    being fulfilled with a response or failing, the [n]-th registered
    timer callback running, and a click on a row's dismiss button. *)
Inductive Label : Type :=
| Submit (files : option (list File.t))
| Resolve (n : nat) (fileId : string)
| Reject (n : nat) (e : Thrown)
| Fire (n : nat)
| Dismiss (index : Z).

(** [handleFiles] up to its first suspension.  The handler closes over
    the [uploadQueue] of the render it was created in; that render is
    taken to show the current state, so [uploadQueue.length] is the
    length before the append. *)
Definition handleFiles (files : option (list File.t)) (s : Sys) : Sys :=
  match files with
  | None => s
  | Some files =>
      let '(valid, new) := scan files in
      let base := length (uploadQueue s) in
      iterate valid base 0 (setUploadQueue (appendNew new) s)
  end.

(** The continuation after [await] when the upload is fulfilled: the
    [processing] update, [setTimeout], and the next pass of the loop. *)
Definition resume_ok (n : nat) (fileId : string) (s : Sys) : option Sys :=
  inv ← awaiting s !! n;
  f ← inv_validFiles inv !! inv_i inv;
  let queueIndex := inv_base inv + inv_i inv in
  Some (iterate (inv_validFiles inv) (inv_base inv) (S (inv_i inv))
          (setTimeout (mkTimer queueIndex f fileId)
             (setUploadQueue (map_at queueIndex toProcessing)
                (emit [UploadSettled f (Some fileId)] (wake n s))))).

(** The [catch] block, then the next pass of the loop. *)
Definition resume_err (n : nat) (e : Thrown) (s : Sys) : option Sys :=
  inv ← awaiting s !! n;
  f ← inv_validFiles inv !! inv_i inv;
  let queueIndex := inv_base inv + inv_i inv in
  Some (iterate (inv_validFiles inv) (inv_base inv) (S (inv_i inv))
          (setUploadQueue (map_at queueIndex (toError e))
             (emit [UploadSettled f None] (wake n s)))).

(** The timer callback: the [completed] update, then
    [if (onUploadComplete) onUploadComplete(response.fileId)]. *)
Definition fire (n : nat) (s : Sys) : option Sys :=
  tm ← timers s !! n;
  Some (emit (if hasOnUploadComplete
              then [CallOnUploadComplete (tm_fileId tm)] else [])
          (setUploadQueue (map_at (tm_queueIndex tm) toCompleted)
             (expire n s))).

(** [removeFromQueue(index)] from a row's button. *)
Definition dismiss (index : Z) (s : Sys) : Sys :=
  setUploadQueue (removeFromQueue index) s.

Definition step (s : Sys) (l : Label) : option Sys :=
  match l with
  | Submit files => Some (handleFiles files s)
  | Resolve n fileId => resume_ok n fileId s
  | Reject n e => resume_err n e s
  | Fire n => fire n s
  | Dismiss index => Some (dismiss index s)
  end.

Fixpoint run (s : Sys) (ls : list Label) : option Sys :=
  match ls with
  | [] => Some s
  | l :: ls => s' ← step s l; run s' ls
  end.

(** *** Which queue positions the running code will still write to

    Every suspended invocation writes to [base + i] when its upload
    settles and, later, to [base + j] for the remaining
    [i < j < validFiles.length]; every registered timer writes to its
    [queueIndex].  A [Slot] is such a position with the stage of the
    transfer that will write to it and the file that transfer uploads. *)

Inductive Stage : Type := Queued | InFlight | Waiting.

Definition stage_progress (st : Stage) : Z :=
  match st with Queued => 0 | InFlight => 50 | Waiting => 75 end.

Definition stage_status (st : Stage) : Status.t :=
  match st with
  | Queued => Status.pending
  | InFlight => Status.uploading
  | Waiting => Status.processing
  end.

Definition Slot : Type := nat * (Stage * File.t).

Definition queued_slots (from : nat) (rest : list File.t) : list Slot :=
  imap (λ j g, (from + j, (Queued, g))) rest.

Definition inv_slots (inv : Invocation) : list Slot :=
  match drop (inv_i inv) (inv_validFiles inv) with
  | [] => []
  | f :: rest =>
      (inv_base inv + inv_i inv, (InFlight, f))
      :: queued_slots (inv_base inv + S (inv_i inv)) rest
  end.

Definition timer_slot (tm : Timer) : Slot :=
  (tm_queueIndex tm, (Waiting, tm_file tm)).

Definition slots (s : Sys) : list Slot :=
  (awaiting s ≫= inv_slots) ++ (timer_slot <$> timers s).

(** The entry at the position of a slot is as [P] expects for its stage. *)
Definition holds (P : Stage → File.t → UploadProgress → Prop)
    (q : list UploadProgress) (c : Slot) : Prop :=
  ∃ item, q !! c.1 = Some item ∧ P c.2.1 c.2.2 item.

(** No position is reserved twice, the entry at every slot (those of
    [extra], about to be taken by an invocation, included) is as [P]
    expects, and every entry of the queue satisfies [Q]. *)
Definition owned (P : Stage → File.t → UploadProgress → Prop)
    (Q : UploadProgress → Prop) (extra : list Slot) (s : Sys) : Prop :=
  NoDup ((extra ++ slots s).*1)
  ∧ Forall (holds P (uploadQueue s)) (extra ++ slots s)
  ∧ Forall Q (uploadQueue s)
  ∧ Forall (λ inv, inv_i inv < length (inv_validFiles inv)) (awaiting s).

(** Nothing is in flight and no timer is registered. *)
Definition quiet (s : Sys) : bool :=
  match awaiting s, timers s with
  | [], [] => true
  | _, _ => false
  end.

(** No rejected file comes before an accepted one in the batch. *)
Fixpoint aligned (files : list File.t) : bool :=
  match files with
  | [] => true
  | f :: rest => if rejected f then forallb rejected rest else aligned rest
  end.

(** Runs in which every submitted batch satisfies [ok] and rows are
    dismissed only while the component is [quiet]. *)
Definition permitted (ok : list File.t → bool) (s : Sys) (l : Label)
  : bool :=
  match l with
  | Submit (Some files) => ok files
  | Dismiss _ => quiet s
  | _ => true
  end.

Fixpoint permitted_run (ok : list File.t → bool) (s : Sys)
    (ls : list Label) : bool :=
  match ls with
  | [] => true
  | l :: ls =>
      permitted ok s l
      && match step s l with
         | Some s' => permitted_run ok s' ls
         | None => true
         end
  end.

Definition clean : Sys → list Label → bool := permitted_run aligned.


Definition P_entry (st : Stage) (f : File.t) (item : UploadProgress)
  : Prop := item = mkItem f (stage_progress st) (stage_status st) None.

Definition Q_error (item : UploadProgress) : Prop :=
  error item ≠ None ↔ status item = Status.error.

(** *** Counting calls *)

Fixpoint count {A} (p : A → bool) (l : list A) : nat :=
  match l with
  | [] => 0
  | x :: l => (if p x then 1 else 0) + count p l
  end.

Definition is_call (ev : Event) : bool :=
  match ev with CallUploadFile _ _ => true | _ => false end.

Definition is_settled (ev : Event) : bool :=
  match ev with UploadSettled _ _ => true | _ => false end.

Definition is_submit (l : Label) : bool :=
  match l with Submit _ => true | _ => false end.

(** *** The rest of the component and its neighbours *)

(** The name contains a dot. *)
Fixpoint has_dot (s : string) : bool :=
  match s with
  | EmptyString => false
  | String c rest => Ascii.eqb c "."%char || has_dot rest
  end.

(** The progress each transition writes together with a status, and the
    progress of a new entry. *)
Definition status_progress (st : Status.t) : Z :=
  match st with
  | Status.pending => 0
  | Status.uploading => 50
  | Status.processing => 75
  | Status.completed => 100
  | Status.error => 0
  end.

(** What the running code still has to do: two steps for every file an
    invocation has not settled yet (its settlement and, when fulfilled,
    its timer), one for every registered timer. *)
Definition invocation_work (inv : Invocation) : nat :=
  2 * (length (inv_validFiles inv) - inv_i inv).

Definition pending_work (s : Sys) : nat :=
  sum_list_with invocation_work (awaiting s) + length (timers s).

Definition is_notify (ev : Event) : bool :=
  match ev with CallOnUploadComplete _ => true | _ => false end.

Definition is_fulfilled (ev : Event) : bool :=
  match ev with UploadSettled _ (Some _) => true | _ => false end.

(** The candidates of a call of [handleFiles], and those of all calls in
    order. *)
Definition candidates (l : Label) : list File.t :=
  match l with Submit (Some files) => files | _ => [] end.

Definition submitted (ls : list Label) : list File.t := ls ≫= candidates.

Definition is_dismiss (l : Label) : bool :=
  match l with Dismiss _ => true | _ => false end.

(** *** A row of the queue list, as the component renders it

    [{uploadQueue.map((item, index) => <Card key={index}> ... </Card>)}]:
    the name, the formatted size, the conditional classes handed to [cn]
    and the conditional labels of the status badge, the progress bar
    (absent in the [error] state) and the error text (absent when
    [item.error] is falsy). *)
Record Row : Type := mkRow {
  row_name : string;
  row_size : string;
  row_badge_classes : list string;
  row_badge_labels : list string;
  row_progress : option Z;
  row_error : option string
}.

(** [cond && text] as a child or as an argument of [cn]: present when
    [cond] holds. *)
Definition when (cond : bool) (text : string) : list string :=
  if cond then [text] else [].

Definition is_status (st st' : Status.t) : bool := bool_decide (st = st').

Definition render_row (item : UploadProgress) : Row :=
  {| row_name := File.name (file item);
     row_size := formatFileSize (File.size (file item));
     row_badge_classes :=
       when (is_status (status item) Status.completed)
         "bg-green-100 text-green-700"
       ++ when (is_status (status item) Status.uploading)
            "bg-blue-100 text-blue-700"
       ++ when (is_status (status item) Status.processing)
            "bg-yellow-100 text-yellow-700"
       ++ when (is_status (status item) Status.error)
            "bg-red-100 text-red-700"
       ++ when (is_status (status item) Status.pending)
            "bg-neutral-100 text-neutral-700";
     row_badge_labels :=
       when (is_status (status item) Status.completed) "✓ Completato"
       ++ when (is_status (status item) Status.uploading) "⟳ Caricamento..."
       ++ when (is_status (status item) Status.processing) "⚙ Elaborazione..."
       ++ when (is_status (status item) Status.error) "✗ Errore"
       ++ when (is_status (status item) Status.pending) "In attesa...";
     row_progress :=
       if negb (is_status (status item) Status.error)
       then Some (progress item) else None;
     row_error := if truthy (error item) then error item else None |}.

(** The entry is neither [completed] nor in the [error] state. *)
Definition unfinished (item : UploadProgress) : bool :=
  negb (is_status (status item) Status.completed
        || is_status (status item) Status.error).

(** Every unfinished entry is at a position the running code will still
    write to. *)
Definition reserved (s : Sys) : Prop :=
  ∀ k item, uploadQueue s !! k = Some item → unfinished item = true →
            k ∈ (slots s).*1.

(** The [queueIndex] a step writes to first: that of the settling
    invocation or of the firing timer. *)
Definition queueIndex_of (s : Sys) (l : Label) : option nat :=
  match l with
  | Resolve n _ | Reject n _ =>
      inv ← awaiting s !! n; Some (inv_base inv + inv_i inv)
  | Fire n => tm ← timers s !! n; Some (tm_queueIndex tm)
  | _ => None
  end.

(** *** Sample inputs for the examples at the end *)

(** Stands for [formatFileSize] in the examples; no example depends on
    the text it returns. *)
Definition sampleFormat (bytes : Z) : string := "50 MB".

Definition report_csv : File.t := File.mk "report.csv" 10240.
Definition malware_exe : File.t := File.mk "malware.exe" 10240.
Definition a_csv : File.t := File.mk "a.csv" 10240.
Definition b_pdf : File.t := File.mk "b.pdf" 10240.
Definition exact_xlsx : File.t := File.mk "bigdata.xlsx" 52428800.
Definition bigdata_xlsx : File.t := File.mk "bigdata.xlsx" 62914560.
Definition network_error : Thrown := ThrownError "Network Error".

(** * Properties *)

Local Close Scope string_scope.

(** ** Arrays *)

Section Arrays.
Context {A : Type}.
Implicit Types (l : list A) (f : A → A).

Lemma map_at_alter k f l : map_at k f l = alter f k l.
Proof.
  apply list_eq. intros j. unfold map_at. rewrite list_lookup_imap.
  destruct (decide (k = j)) as [->|Hne].
  - rewrite list_lookup_alter_eq, Nat.eqb_refl. done.
  - rewrite list_lookup_alter_ne by done.
    replace (Nat.eqb j k) with false by (symmetry; apply Nat.eqb_neq; lia).
    by destruct (l !! j).
Qed.

Lemma length_map_at k f l : length (map_at k f l) = length l.
Proof. by rewrite map_at_alter, length_alter. Qed.

Lemma lookup_map_at_eq k f l : map_at k f l !! k = f <$> l !! k.
Proof. by rewrite map_at_alter, list_lookup_alter_eq. Qed.

Lemma lookup_map_at_ne k j f l : k ≠ j → map_at k f l !! j = l !! j.
Proof. intros. by rewrite map_at_alter, list_lookup_alter_ne. Qed.

Lemma map_at_ge k f l : length l ≤ k → map_at k f l = l.
Proof.
  intros Hk. apply list_eq. intros j.
  destruct (decide (k = j)) as [->|]; [|by apply lookup_map_at_ne].
  rewrite lookup_map_at_eq. by rewrite (lookup_ge_None_2 l j).
Qed.

Lemma fmap_map_at {B} (g : A → B) k f l :
  (∀ x, g (f x) = g x) → g <$> map_at k f l = g <$> l.
Proof.
  intros Hg. rewrite map_at_alter. apply list_eq. intros j.
  rewrite !list_lookup_fmap.
  destruct (decide (k = j)) as [->|].
  - rewrite list_lookup_alter_eq. destruct (l !! j); simpl; [|done].
    by rewrite Hg.
  - by rewrite list_lookup_alter_ne.
Qed.

Lemma filter_idx_from_all p start l :
  (∀ j, j < length l → p (start + j) = true) → filter_idx_from p start l = l.
Proof.
  revert start. induction l as [|x l IH]; intros start Hp; [done|]. simpl.
  rewrite <- (Nat.add_0_r start) at 1. rewrite Hp by (simpl; lia).
  f_equal. apply IH. intros j Hj.
  replace (S start + j) with (start + S j) by lia. apply Hp. simpl. lia.
Qed.

Lemma filter_idx_from_ne_delete start k l :
  filter_idx_from (λ idx, negb (Nat.eqb idx (start + k))) start l
  = delete k l.
Proof.
  revert start k. induction l as [|x l IH]; intros start k; [done|]. simpl.
  destruct k as [|k].
  - rewrite Nat.add_0_r, Nat.eqb_refl. simpl.
    apply filter_idx_from_all. intros j _.
    apply negb_true_iff, Nat.eqb_neq. lia.
  - replace (Nat.eqb start (start + S k)) with false
      by (symmetry; apply Nat.eqb_neq; lia).
    simpl. f_equal. replace (start + S k) with (S start + k) by lia.
    apply IH.
Qed.
End Arrays.

(** ** Validation and the synchronous part of [handleFiles] *)

Lemma validateFile_rejected f :
  validateFile f =
    if rejected f
    then Some (if includes ALLOWED_EXTENSIONS (fileExt f)
               then size_error else type_error)
    else None.
Proof.
  unfold validateFile, rejected.
  destruct (includes ALLOWED_EXTENSIONS (fileExt f)); simpl; [|done].
  by destruct (File.size f >? MAX_FILE_SIZE)%Z.
Qed.

Lemma type_error_nonempty : type_error ≠ EmptyString.
Proof. done. Qed.

Lemma size_error_nonempty : size_error ≠ EmptyString.
Proof. done. Qed.

Lemma truthy_validateFile f : truthy (validateFile f) = rejected f.
Proof.
  rewrite validateFile_rejected. destruct (rejected f); [|done].
  by destruct (includes ALLOWED_EXTENSIONS (fileExt f)).
Qed.

Lemma classify_entry acc f :
  classify acc f =
    (acc.1 ++ (if rejected f then [] else [f]), acc.2 ++ [entry_of f]).
Proof.
  destruct acc as [valid new]. unfold classify, entry_of.
  rewrite truthy_validateFile, validateFile_rejected.
  destruct (rejected f); simpl; [|done]. by rewrite app_nil_r.
Qed.

Lemma scan_from acc files :
  fold_left classify files acc =
    (acc.1 ++ filter (λ f, rejected f = false) files,
     acc.2 ++ (entry_of <$> files)).
Proof.
  revert acc. induction files as [|f files IH]; intros acc; simpl.
  - rewrite !app_nil_r. by destruct acc.
  - rewrite IH, classify_entry. simpl. rewrite <- !app_assoc. simpl.
    rewrite filter_cons. by destruct (rejected f).
Qed.

Lemma scan_spec files :
  scan files = (filter (λ f, rejected f = false) files, entry_of <$> files).
Proof. unfold scan. by rewrite scan_from. Qed.

Lemma validFiles_filter files :
  validFiles files = filter (λ f, rejected f = false) files.
Proof. unfold validFiles. by rewrite scan_spec. Qed.

Lemma newQueue_entries files : newQueue files = entry_of <$> files.
Proof. unfold newQueue. by rewrite scan_spec. Qed.

Lemma validFiles_accepted files f : f ∈ validFiles files → rejected f = false.
Proof. rewrite validFiles_filter, list_elem_of_filter. tauto. Qed.

Lemma filter_idx_from_ext {A} (p q : nat → bool) start (l : list A) :
  (∀ j, p j = q j) → filter_idx_from p start l = filter_idx_from q start l.
Proof.
  intros Hpq. revert start. induction l as [|x l IH]; intros start; [done|].
  simpl. by rewrite Hpq, IH.
Qed.

Lemma removeFromQueue_out_of_range index prev :
  ¬ (0 ≤ index < Z.of_nat (length prev))%Z → removeFromQueue index prev = prev.
Proof.
  intros Hrange. unfold removeFromQueue, filter_idx.
  apply filter_idx_from_all. intros j Hj. simpl.
  apply negb_true_iff, Z.eqb_neq. lia.
Qed.

Lemma removeFromQueue_delete (k : nat) prev :
  removeFromQueue (Z.of_nat k) prev = delete k prev.
Proof.
  unfold removeFromQueue, filter_idx.
  rewrite <- (filter_idx_from_ne_delete 0 k prev).
  apply filter_idx_from_ext. intros j. simpl. f_equal.
  destruct (Nat.eqb_spec j k) as [->|Hne].
  - apply Z.eqb_refl.
  - apply Z.eqb_neq. lia.
Qed.

(** ** One step, case by case *)

Lemma scan_pair files : scan files = (validFiles files, newQueue files).
Proof. unfold validFiles, newQueue. by destruct (scan files). Qed.

Lemma lookup_map_at {A} k j (f : A → A) (l : list A) :
  map_at k f l !! j = if decide (k = j) then f <$> l !! j else l !! j.
Proof.
  case_decide as Hkj.
  - subst. apply lookup_map_at_eq.
  - by apply lookup_map_at_ne.
Qed.

Lemma Forall_map_at {A} (R : A → Prop) k g (q : list A) :
  (∀ x, R x → R (g x)) → Forall R q → Forall R (map_at k g q).
Proof.
  intros Hg Hq. rewrite map_at_alter. apply Forall_alter; [done|].
  intros x _. apply Hg.
Qed.

Lemma Forall_removeFromQueue (R : UploadProgress → Prop) index q :
  Forall R q → Forall R (removeFromQueue index q).
Proof.
  intros Hq.
  destruct (decide (0 ≤ index < Z.of_nat (length q))%Z).
  - rewrite <- (Z2Nat.id index) by lia. rewrite removeFromQueue_delete.
    by apply Forall_delete.
  - by rewrite removeFromQueue_out_of_range.
Qed.

Lemma iterate_uploadQueue valid base i s :
  uploadQueue (iterate valid base i s) =
    match valid !! i with
    | Some _ => map_at (base + i) toUploading (uploadQueue s)
    | None => uploadQueue s
    end.
Proof. unfold iterate. by destruct (valid !! i). Qed.

Lemma iterate_trace valid base i s :
  trace (iterate valid base i s) =
    trace s ++ match valid !! i with
               | Some f => [CallUploadFile f projectId]
               | None => []
               end.
Proof. unfold iterate. destruct (valid !! i); simpl; by rewrite ?app_nil_r. Qed.

Lemma iterate_awaiting valid base i s :
  awaiting (iterate valid base i s) =
    awaiting s ++ match valid !! i with
                  | Some _ => [mkInvocation valid base i]
                  | None => []
                  end.
Proof. unfold iterate. destruct (valid !! i); simpl; by rewrite ?app_nil_r. Qed.

Lemma iterate_timers valid base i s :
  timers (iterate valid base i s) = timers s.
Proof. unfold iterate. by destruct (valid !! i). Qed.

Create Rewrite HintDb iterate.
#[local] Hint Rewrite iterate_uploadQueue iterate_trace iterate_awaiting
  iterate_timers : iterate.

Lemma handleFiles_unfold files s :
  handleFiles (Some files) s
  = iterate (validFiles files) (length (uploadQueue s)) 0
      (setUploadQueue (appendNew (newQueue files)) s).
Proof. unfold handleFiles. by rewrite scan_pair. Qed.

Lemma resume_ok_inv n fileId s s' :
  resume_ok n fileId s = Some s' →
  ∃ valid base i f,
    awaiting s !! n = Some (mkInvocation valid base i)
    ∧ valid !! i = Some f
    ∧ s' = iterate valid base (S i)
             (setTimeout (mkTimer (base + i) f fileId)
                (setUploadQueue (map_at (base + i) toProcessing)
                   (emit [UploadSettled f (Some fileId)] (wake n s)))).
Proof.
  unfold resume_ok. intros Hstep.
  destruct (awaiting s !! n) as [[valid base i]|]; simpl in Hstep; [|done].
  destruct (valid !! i) as [f|] eqn:Hi; simpl in Hstep; [|done].
  injection Hstep as <-. by exists valid, base, i, f.
Qed.

Lemma resume_err_inv n e s s' :
  resume_err n e s = Some s' →
  ∃ valid base i f,
    awaiting s !! n = Some (mkInvocation valid base i)
    ∧ valid !! i = Some f
    ∧ s' = iterate valid base (S i)
             (setUploadQueue (map_at (base + i) (toError e))
                (emit [UploadSettled f None] (wake n s))).
Proof.
  unfold resume_err. intros Hstep.
  destruct (awaiting s !! n) as [[valid base i]|]; simpl in Hstep; [|done].
  destruct (valid !! i) as [f|] eqn:Hi; simpl in Hstep; [|done].
  injection Hstep as <-. by exists valid, base, i, f.
Qed.

Lemma fire_inv n s s' :
  fire n s = Some s' →
  ∃ tm,
    timers s !! n = Some tm
    ∧ s' = emit (if hasOnUploadComplete
                 then [CallOnUploadComplete (tm_fileId tm)] else [])
             (setUploadQueue (map_at (tm_queueIndex tm) toCompleted)
                (expire n s)).
Proof.
  unfold fire. intros Hstep.
  destruct (timers s !! n) as [tm|]; simpl in Hstep; [|done].
  injection Hstep as <-. by exists tm.
Qed.

(** Splits a successful step into the six kinds of step, each with the
    state it leads to. *)
Ltac step_inv Hstep :=
  match type of Hstep with
  | step ?s ?l = Some ?s' =>
      destruct l as [[files|]|n fileId|n e|n|index];
      cbv beta iota delta [step] in Hstep;
      [ assert (s' = handleFiles (Some files) s) as -> by congruence;
        clear Hstep; rewrite ?handleFiles_unfold in *
      | assert (s' = s) as -> by (unfold handleFiles in Hstep; congruence);
        clear Hstep
      | apply resume_ok_inv in Hstep
          as (valid & base & i & f & Hn & Hi & ->)
      | apply resume_err_inv in Hstep
          as (valid & base & i & f & Hn & Hi & ->)
      | apply fire_inv in Hstep as (tm & Hn & ->)
      | assert (s' = dismiss index s) as -> by congruence; clear Hstep ]
  end.

Lemma run_invariant (I : Sys → Prop) :
  (∀ s l s', I s → step s l = Some s' → I s') →
  ∀ ls s s', I s → run s ls = Some s' → I s'.
Proof.
  intros Hstep ls. induction ls as [|l ls IH]; intros s s' Hs Hrun;
    simpl in Hrun.
  - by injection Hrun as <-.
  - destruct (step s l) as [s1|] eqn:Hl; simpl in Hrun; [|done].
    eapply IH; [|done]. by eapply Hstep.
Qed.

(** ** C10 and C9 *)

(** C10. The size test is [file.size > MAX_FILE_SIZE] with
    [MAX_FILE_SIZE] = 52,428,800: among the files with an allowed
    extension, exactly those of at most 52,428,800 bytes pass
    [validateFile], and exactly the larger ones get the size message. *)
Theorem C10_size_ceiling_is_strict (f : File.t) :
  includes ALLOWED_EXTENSIONS (fileExt f) = true →
  MAX_FILE_SIZE = 52428800%Z ∧
  (validateFile f = None ↔ (File.size f ≤ 52428800)%Z) ∧
  (validateFile f = Some size_error ↔ (52428800 < File.size f)%Z).
Proof.
  intros Hext. split; [reflexivity|].
  unfold validateFile. rewrite Hext. simpl.
  change MAX_FILE_SIZE with 52428800%Z.
  destruct (Z.gtb_spec (File.size f) 52428800); split; split;
    intros; try done; try lia.
Qed.

(** C9. [removeFromQueue index] deletes the entry at position [index]
    and nothing else, whatever that entry's state: the entries before it
    and the entries after it remain, in their order; for an [index] that
    is not a position of the queue the queue is returned unchanged. *)
Theorem C9_dismiss_removes_exactly_that_position
    (index : Z) (s : Sys) :
  uploadQueue (dismiss index s) =
    (if decide (0 ≤ index < Z.of_nat (length (uploadQueue s)))%Z
     then take (Z.to_nat index) (uploadQueue s)
            ++ drop (S (Z.to_nat index)) (uploadQueue s)
     else uploadQueue s)
  ∧ awaiting (dismiss index s) = awaiting s
  ∧ timers (dismiss index s) = timers s
  ∧ trace (dismiss index s) = trace s.
Proof.
  split; [|done]. simpl. case_decide as Hrange.
  - rewrite <- (Z2Nat.id index) at 1 by lia.
    by rewrite removeFromQueue_delete, delete_take_drop.
  - by apply removeFromQueue_out_of_range.
Qed.

(** ** Claimed positions *)

Lemma queued_slots_cons from g rest :
  queued_slots from (g :: rest)
  = (from, (Queued, g)) :: queued_slots (S from) rest.
Proof.
  unfold queued_slots. simpl. rewrite Nat.add_0_r. f_equal.
  apply imap_ext. intros j x _. simpl. do 2 f_equal. lia.
Qed.

Lemma queued_slots_fst from rest :
  (queued_slots from rest).*1 = seq from (length rest).
Proof.
  revert from. induction rest as [|g rest IH]; intros from; [done|].
  rewrite queued_slots_cons. simpl. by rewrite IH.
Qed.

Lemma queued_slots_lookup from rest j g :
  rest !! j = Some g → queued_slots from rest !! j = Some (from + j, (Queued, g)).
Proof.
  intros Hj. unfold queued_slots. by rewrite list_lookup_imap, Hj.
Qed.

Lemma inv_slots_unfold valid base i f :
  valid !! i = Some f →
  inv_slots (mkInvocation valid base i)
  = (base + i, (InFlight, f)) :: queued_slots (base + S i) (drop (S i) valid).
Proof.
  intros Hi. unfold inv_slots. simpl.
  by rewrite (drop_S _ _ _ Hi).
Qed.

Lemma slots_wake n inv s :
  awaiting s !! n = Some inv →
  slots s ≡ₚ inv_slots inv ++ slots (wake n s).
Proof.
  intros Hn. unfold slots. simpl.
  rewrite (delete_Permutation _ _ _ Hn) at 1.
  by rewrite bind_cons, <- app_assoc.
Qed.

Lemma slots_expire n tm s :
  timers s !! n = Some tm →
  slots s ≡ₚ timer_slot tm :: slots (expire n s).
Proof.
  intros Hn. unfold slots. simpl.
  rewrite (delete_Permutation _ _ _ Hn) at 1.
  rewrite fmap_cons. by rewrite <- Permutation_middle.
Qed.

Lemma slots_suspend inv s :
  slots (suspend inv s) ≡ₚ inv_slots inv ++ slots s.
Proof.
  unfold slots. simpl. rewrite bind_app. simpl. rewrite app_nil_r.
  rewrite !app_assoc. f_equiv. apply Permutation_app_comm.
Qed.

Lemma slots_setTimeout tm s :
  slots (setTimeout tm s) ≡ₚ timer_slot tm :: slots s.
Proof.
  unfold slots. simpl. rewrite fmap_app. simpl.
  rewrite app_assoc. by rewrite <- Permutation_cons_append.
Qed.

Lemma slots_setUploadQueue u s : slots (setUploadQueue u s) = slots s.
Proof. done. Qed.

Lemma slots_emit evs s : slots (emit evs s) = slots s.
Proof. done. Qed.

Lemma slots_quiet s : quiet s = true → slots s = [].
Proof.
  unfold quiet, slots. destruct (awaiting s), (timers s); done.
Qed.

(** ** The slots are kept by every permitted step *)

Section Ownership.
Variable P : Stage → File.t → UploadProgress → Prop.
Variable Q : UploadProgress → Prop.
Variable ok : list File.t → bool.

Hypothesis P_uploading : ∀ f item, P Queued f item → P InFlight f (toUploading item).
Hypothesis P_processing : ∀ f item, P InFlight f item → P Waiting f (toProcessing item).
Hypothesis Q_uploading : ∀ f item, P Queued f item → Q (toUploading item).
Hypothesis Q_processing : ∀ f item, P InFlight f item → Q (toProcessing item).
Hypothesis Q_completed : ∀ f item, P Waiting f item → Q (toCompleted item).
Hypothesis Q_failed : ∀ e item, Q (toError e item).
Hypothesis P_new : ∀ files j f,
  ok files = true → validFiles files !! j = Some f →
  ∃ item, newQueue files !! j = Some item ∧ P Queued f item.
Hypothesis Q_new : ∀ files item, item ∈ newQueue files → Q item.

Lemma holds_in_range q c : holds P q c → c.1 < length q.
Proof. intros (item & Hc & _). by eapply lookup_lt_Some. Qed.

Lemma holds_map_at_ne k g q c :
  c.1 ≠ k → holds P q c → holds P (map_at k g q) c.
Proof.
  intros Hne (item & Hc & HP). exists item.
  by rewrite lookup_map_at_ne.
Qed.

Lemma Forall_holds_map_at k g q cs :
  k ∉ cs.*1 → Forall (holds P q) cs → Forall (holds P (map_at k g q)) cs.
Proof.
  intros Hk. rewrite !Forall_forall. intros Hcs c Hc.
  apply holds_map_at_ne; [|by apply Hcs].
  intros <-. apply Hk. by apply list_elem_of_fmap_2.
Qed.

Lemma holds_map_at_eq k g q st st' f :
  (∀ item, P st f item → P st' f (g item)) →
  holds P q (k, (st, f)) → holds P (map_at k g q) (k, (st', f)).
Proof.
  intros Hg (item & Hc & HP). exists (g item). simpl in *.
  rewrite lookup_map_at_eq, Hc. split; [done|]. by apply Hg.
Qed.

Lemma holds_app q new c : holds P q c → holds P (q ++ new) c.
Proof.
  intros (item & Hc & HP). exists item. split; [|done].
  rewrite lookup_app_l; [done|]. by eapply lookup_lt_Some.
Qed.

Lemma Forall_Q_map_at k g q :
  Forall Q q → (∀ item, q !! k = Some item → Q (g item)) →
  Forall Q (map_at k g q).
Proof.
  rewrite !Forall_lookup. intros Hq Hg j item.
  destruct (decide (k = j)) as [->|Hne].
  - rewrite lookup_map_at_eq. destruct (q !! j) as [item0|] eqn:Hj; [|done].
    simpl. intros [= <-]. by apply Hg.
  - rewrite lookup_map_at_ne by done. apply Hq.
Qed.

(** One pass of the loop turns the first queued slot into the slot of
    the suspended invocation. *)
Lemma iterate_owned valid base i from s :
  from = base + i →
  owned P Q (queued_slots from (drop i valid)) s →
  owned P Q [] (iterate valid base i s).
Proof.
  intros -> (Hnd & Hholds & HQ & Hwf). unfold iterate.
  destruct (valid !! i) as [f|] eqn:Hi.
  - rewrite (drop_S _ _ _ Hi), queued_slots_cons in Hnd, Hholds.
    simpl in Hnd, Hholds.
    apply NoDup_cons in Hnd as [Hfresh Hnd].
    apply Forall_cons in Hholds as [Hhead Hholds].
    assert (Hperm : slots (suspend (mkInvocation valid base i)
              (emit [CallUploadFile f projectId]
                 (setUploadQueue (map_at (base + i) toUploading) s)))
            ≡ₚ (base + i, (InFlight, f))
               :: queued_slots (S (base + i)) (drop (S i) valid) ++ slots s).
    { rewrite slots_suspend, (inv_slots_unfold _ _ _ _ Hi).
      rewrite slots_emit, slots_setUploadQueue.
      by replace (base + S i) with (S (base + i)) by lia. }
    split; [|split; [|split]]; simpl.
    + rewrite Hperm. simpl. by apply NoDup_cons.
    + rewrite Hperm. apply Forall_cons. split.
      * apply (holds_map_at_eq _ _ _ Queued); [apply P_uploading | done].
      * by apply Forall_holds_map_at.
    + apply Forall_Q_map_at; [done|]. intros item Hitem.
      destruct Hhead as (item0 & Hitem0 & HP). simpl in *.
      replace item with item0 by congruence. by eapply Q_uploading.
    + apply Forall_app. split; [done|]. apply Forall_singleton. simpl.
      by eapply lookup_lt_Some.
  - apply lookup_ge_None in Hi. rewrite (drop_ge _ _ Hi) in Hnd, Hholds.
    done.
Qed.


Lemma handleFiles_owned files s :
  ok files = true → owned P Q [] s →
  owned P Q [] (handleFiles (Some files) s).
Proof.
  intros Hok (Hnd & Hholds & HQ & Hwf). rewrite handleFiles_unfold.
  simpl in Hnd, Hholds.
  apply (iterate_owned _ _ _ (length (uploadQueue s))); [lia|].
  rewrite drop_0. split; [|split; [|split]]; simpl.
  - rewrite fmap_app, queued_slots_fst. apply NoDup_app.
    split; [apply NoDup_seq|]. split; [|done].
    intros k Hk%elem_of_seq (c & -> & Hc)%list_elem_of_fmap.
    rewrite Forall_forall in Hholds.
    pose proof (holds_in_range _ _ (Hholds c Hc)). lia.
  - apply Forall_app. split.
    + apply Forall_lookup. intros j c Hc. unfold queued_slots in Hc.
      rewrite list_lookup_imap in Hc.
      destruct (validFiles files !! j) as [g|] eqn:Hj; [|done].
      simpl in Hc. injection Hc as <-.
      destruct (P_new files j g Hok Hj) as (item & Hitem & HP).
      exists item. simpl. split; [|done]. unfold appendNew.
      rewrite lookup_app_r by lia.
      by replace (length (uploadQueue s) + j - length (uploadQueue s))
        with j by lia.
    + eapply Forall_impl; [done|]. intros c. apply holds_app.
  - unfold appendNew. apply Forall_app. split; [done|].
    apply Forall_forall. apply Q_new.
  - done.
Qed.

Lemma resume_ok_owned n fileId s s' :
  owned P Q [] s → resume_ok n fileId s = Some s' → owned P Q [] s'.
Proof.
  intros (Hnd & Hholds & HQ & Hwf)
    (valid & base & i & f & Hn & Hi & ->)%resume_ok_inv.
  apply (iterate_owned _ _ _ (base + S i)); [done|].
  simpl in Hnd, Hholds.
  rewrite (slots_wake _ _ _ Hn), (inv_slots_unfold _ _ _ _ Hi)
    in Hnd, Hholds.
  simpl in Hnd, Hholds.
  apply NoDup_cons in Hnd as [Hfresh Hnd].
  apply Forall_cons in Hholds as [Hhead Hholds].
  set (rest := queued_slots (base + S i) (drop (S i) valid)) in *.
  set (s1 := setTimeout _ _).
  assert (Hperm : rest ++ slots s1
            ≡ₚ (base + i, (Waiting, f)) :: rest ++ slots (wake n s)).
  { unfold s1. rewrite slots_setTimeout. simpl.
    by rewrite <- Permutation_middle. }
  split; [|split; [|split]].
  - rewrite Hperm. simpl. by apply NoDup_cons.
  - rewrite Hperm. apply Forall_cons. split.
    + apply (holds_map_at_eq _ _ _ InFlight); [apply P_processing|done].
    + by apply Forall_holds_map_at.
  - apply Forall_Q_map_at; [done|]. intros item Hitem.
    destruct Hhead as (item0 & Hitem0 & HP). simpl in *.
    replace item with item0 by congruence. by eapply Q_processing.
  - by apply Forall_delete.
Qed.

Lemma resume_err_owned n e s s' :
  owned P Q [] s → resume_err n e s = Some s' → owned P Q [] s'.
Proof.
  intros (Hnd & Hholds & HQ & Hwf)
    (valid & base & i & f & Hn & Hi & ->)%resume_err_inv.
  apply (iterate_owned _ _ _ (base + S i)); [done|].
  simpl in Hnd, Hholds.
  rewrite (slots_wake _ _ _ Hn), (inv_slots_unfold _ _ _ _ Hi)
    in Hnd, Hholds.
  simpl in Hnd, Hholds.
  apply NoDup_cons in Hnd as [Hfresh Hnd].
  apply Forall_cons in Hholds as [Hhead Hholds].
  split; [|split; [|split]]; simpl.
  - done.
  - by apply Forall_holds_map_at.
  - apply Forall_Q_map_at; [done|]. intros item _. apply Q_failed.
  - by apply Forall_delete.
Qed.

Lemma fire_owned n s s' :
  owned P Q [] s → fire n s = Some s' → owned P Q [] s'.
Proof.
  intros (Hnd & Hholds & HQ & Hwf) (tm & Hn & ->)%fire_inv.
  simpl in Hnd, Hholds. rewrite (slots_expire _ _ _ Hn) in Hnd, Hholds.
  simpl in Hnd, Hholds.
  apply NoDup_cons in Hnd as [Hfresh Hnd].
  apply Forall_cons in Hholds as [Hhead Hholds].
  split; [|split; [|split]]; simpl.
  - done.
  - by apply Forall_holds_map_at.
  - apply Forall_Q_map_at; [done|]. intros item Hitem.
    destruct Hhead as (item0 & Hitem0 & HP). simpl in *.
    replace item with item0 by congruence. by eapply Q_completed.
  - done.
Qed.

Lemma dismiss_owned index s :
  quiet s = true → owned P Q [] s → owned P Q [] (dismiss index s).
Proof.
  intros Hquiet (Hnd & Hholds & HQ & Hwf).
  unfold owned. rewrite (slots_quiet (dismiss index s) Hquiet). simpl.
  split; [apply NoDup_nil_2|]. split; [done|]. split; [|done].
  by apply Forall_removeFromQueue.
Qed.

Lemma step_owned s l s' :
  permitted ok s l = true → step s l = Some s' →
  owned P Q [] s → owned P Q [] s'.
Proof.
  intros Hl Hstep Hs. destruct l as [[files|]|n fileId|n e|n|index];
    simpl in Hl, Hstep.
  - injection Hstep as <-. by apply handleFiles_owned.
  - by injection Hstep as <-.
  - by eapply resume_ok_owned.
  - by eapply resume_err_owned.
  - by eapply fire_owned.
  - injection Hstep as <-. by apply dismiss_owned.
Qed.

Lemma run_owned ls s s' :
  permitted_run ok s ls = true → run s ls = Some s' →
  owned P Q [] s → owned P Q [] s'.
Proof.
  revert s. induction ls as [|l ls IH]; intros s Hls Hrun Hs; simpl in *.
  - by injection Hrun as <-.
  - destruct (step s l) as [s1|] eqn:Hstep; simpl in Hrun; [|done].
    apply andb_true_iff in Hls as [Hl Hls].
    eapply IH; [done..|]. by eapply step_owned.
Qed.

Lemma init_owned : owned P Q [] init.
Proof.
  unfold owned. simpl. split; [apply NoDup_nil_2|]. done.
Qed.

End Ownership.

(** ** The two instances *)



Lemma entry_of_file f : file (entry_of f) = f.
Proof. unfold entry_of. by destruct (rejected f). Qed.

Lemma entry_of_Q_error f : Q_error (entry_of f).
Proof. unfold entry_of, Q_error. by destruct (rejected f). Qed.

Lemma aligned_lookup files j f :
  aligned files = true → validFiles files !! j = Some f →
  files !! j = Some f ∧ rejected f = false.
Proof.
  rewrite validFiles_filter. revert j.
  induction files as [|g files IH]; intros j Hal Hj; [done|].
  simpl in Hal. rewrite filter_cons in Hj.
  destruct (rejected g) eqn:Hg.
  - exfalso. rewrite decide_False in Hj by done.
    apply list_elem_of_lookup_2, list_elem_of_filter in Hj as [Hacc Hin].
    rewrite forallb_forall in Hal.
    rewrite (Hal f) in Hacc by (by apply list_elem_of_In). done.
  - rewrite decide_True in Hj by done. destruct j as [|j]; simpl in *.
    + by injection Hj as <-.
    + by apply IH.
Qed.


Lemma run_owned_entry ls s :
  clean init ls = true → run init ls = Some s →
  owned P_entry Q_error [] s.
Proof.
  intros Hls Hrun.
  eapply (run_owned P_entry Q_error aligned);
    [..|exact Hls|exact Hrun|apply init_owned].
  - by intros f item ->.
  - by intros f item ->.
  - by intros f item ->.
  - by intros f item ->.
  - by intros f item ->.
  - by intros e item.
  - intros files j f Hal Hj.
    destruct (aligned_lookup _ _ _ Hal Hj) as [Hf Hacc].
    exists (entry_of f). split.
    + by rewrite newQueue_entries, list_lookup_fmap, Hf.
    + unfold entry_of, P_entry. by rewrite Hacc.
  - intros files item. rewrite newQueue_entries.
    intros (f & -> & _)%list_elem_of_fmap. apply entry_of_Q_error.
Qed.

(** ** What one step does to one position of the queue *)






Lemma elem_of_slots_awaiting s n inv c :
  awaiting s !! n = Some inv → c ∈ inv_slots inv → c ∈ slots s.
Proof.
  intros Hn Hc. unfold slots. apply elem_of_app. left.
  apply list_elem_of_bind. exists inv. split; [done|].
  by eapply list_elem_of_lookup_2.
Qed.


Lemma inv_slots_current valid base i f :
  valid !! i = Some f →
  (base + i, (InFlight, f)) ∈ inv_slots (mkInvocation valid base i).
Proof.
  intros Hi. rewrite (inv_slots_unfold _ _ _ _ Hi). apply list_elem_of_here.
Qed.

Lemma inv_slots_next valid base i f g :
  valid !! i = Some f → valid !! S i = Some g →
  (base + S i, (Queued, g)) ∈ inv_slots (mkInvocation valid base i).
Proof.
  intros Hi Hg. rewrite (inv_slots_unfold _ _ _ _ Hi).
  apply list_elem_of_further. apply list_elem_of_lookup. exists 0.
  rewrite (queued_slots_lookup _ _ 0 g).
  - by rewrite Nat.add_0_r.
  - by rewrite lookup_drop, Nat.add_0_r.
Qed.

Section Positions.
Variable P : Stage → File.t → UploadProgress → Prop.
Variable Q : UploadProgress → Prop.

Lemma owned_slot s c item :
  owned P Q [] s → c ∈ slots s → uploadQueue s !! c.1 = Some item →
  P c.2.1 c.2.2 item.
Proof.
  intros (_ & Hholds & _) Hc Hitem. simpl in Hholds.
  rewrite Forall_forall in Hholds.
  destruct (Hholds c Hc) as (item0 & Hitem0 & HP). congruence.
Qed.

Lemma owned_awaiting s n inv :
  owned P Q [] s → awaiting s !! n = Some inv →
  is_Some (inv_validFiles inv !! inv_i inv).
Proof.
  intros (_ & _ & _ & Hwf) Hn. apply lookup_lt_is_Some.
  by apply (Forall_lookup_1 _ _ _ _ Hwf Hn).
Qed.

(** After the continuation of an [await], the entries are those
    before it except at [base + i], rewritten by [g], and at
    [base + (i + 1)], which turns to [uploading] when there is a next
    file. *)
Lemma resumed_position s n valid base i f g k item item' :
  owned P Q [] s →
  awaiting s !! n = Some (mkInvocation valid base i) →
  valid !! i = Some f →
  uploadQueue s !! k = Some item →
  match valid !! S i with
  | Some _ => map_at (base + S i) toUploading
                (map_at (base + i) g (uploadQueue s))
  | None => map_at (base + i) g (uploadQueue s)
  end !! k = Some item' →
  (k ≠ base + i ∧ item' = item)
  ∨ (∃ h, k = base + S i ∧ valid !! S i = Some h
          ∧ P Queued h item ∧ item' = toUploading item)
  ∨ (k = base + i ∧ P InFlight f item ∧ item' = g item).
Proof.
  intros Hs Hn Hi Hitem Hitem'.
  destruct (decide (k = base + i)) as [->|Hne1].
  - right. right. split; [done|]. split.
    + apply (owned_slot s (base + i, (InFlight, f))); [done| |done].
      eapply elem_of_slots_awaiting; [done|].
      by apply inv_slots_current.
    + destruct (valid !! S i);
        rewrite ?(lookup_map_at_ne (base + S i)) in Hitem' by lia;
        rewrite lookup_map_at_eq, Hitem in Hitem'; simpl in Hitem';
        congruence.
  - destruct (valid !! S i) as [h|] eqn:Hh.
    + rewrite lookup_map_at in Hitem'. case_decide as Hk.
      * right. left. exists h. subst k.
        rewrite lookup_map_at_ne, Hitem in Hitem' by lia.
        simpl in Hitem'. split; [done|]. split; [done|]. split.
        -- apply (owned_slot s (base + S i, (Queued, h))); [done| |done].
           eapply elem_of_slots_awaiting; [done|].
           by eapply inv_slots_next.
        -- congruence.
      * left. rewrite lookup_map_at_ne in Hitem' by lia.
        split; [done|]. congruence.
    + left. rewrite lookup_map_at_ne in Hitem' by lia.
      split; [done|]. congruence.
Qed.


End Positions.

(** ** C4 and C3 *)




(** ** Facts about every run *)




(** A property of entries that holds for new entries and is kept by the
    four transitions holds for every entry of every reachable queue. *)
Lemma step_Forall_entries (R : UploadProgress → Prop) s l s' :
  (∀ f, R (entry_of f)) →
  (∀ item, R item → R (toUploading item)) →
  (∀ item, R item → R (toProcessing item)) →
  (∀ item, R item → R (toCompleted item)) →
  (∀ e item, R item → R (toError e item)) →
  Forall R (uploadQueue s) → step s l = Some s' → Forall R (uploadQueue s').
Proof.
  intros Hnew Hup Hproc Hcomp Herr Hq Hstep. step_inv Hstep;
    autorewrite with iterate; simpl.
  - assert (Forall R (appendNew (newQueue files) (uploadQueue s))).
    { apply Forall_app. split; [done|]. rewrite newQueue_entries.
      apply Forall_fmap, Forall_forall. intros f _. apply Hnew. }
    destruct (validFiles files !! 0); [by apply Forall_map_at|done].
  - done.
  - destruct (valid !! S i); repeat apply Forall_map_at; done.
  - destruct (valid !! S i); repeat apply Forall_map_at; try done;
      by apply Herr.
  - by apply Forall_map_at.
  - by apply Forall_removeFromQueue.
Qed.


Lemma step_trace_grows s l s' :
  step s l = Some s' → ∃ evs, trace s' = trace s ++ evs.
Proof.
  intros Hstep. step_inv Hstep; autorewrite with iterate; simpl;
    rewrite <- ?app_assoc; eauto.
  - exists []. by rewrite app_nil_r.
  - exists []. by rewrite app_nil_r.
Qed.


(** ** C8 and C7 *)



(** ** The entries of a call of [handleFiles], C6 and C5 *)

Lemma iterate_accepted valid base i s :
  Forall (λ f, rejected f = false) valid →
  Forall (λ inv, Forall (λ f, rejected f = false) (inv_validFiles inv))
    (awaiting s) →
  Forall (λ ev, ∀ f project, ev = CallUploadFile f project
                             → rejected f = false) (trace s) →
  Forall (λ inv, Forall (λ f, rejected f = false) (inv_validFiles inv))
    (awaiting (iterate valid base i s))
  ∧ Forall (λ ev, ∀ f project, ev = CallUploadFile f project
                               → rejected f = false)
      (trace (iterate valid base i s)).
Proof.
  intros Hvalid Haw Htr. rewrite iterate_awaiting, iterate_trace.
  destruct (valid !! i) as [g|] eqn:Hg.
  - split; (apply Forall_app; split; [done|]); apply Forall_singleton.
    + done.
    + intros f project [= <- _].
      by apply (Forall_lookup_1 _ _ _ _ Hvalid Hg).
  - by rewrite !app_nil_r.
Qed.

Lemma run_calls_accepted ls s :
  run init ls = Some s →
  Forall (λ inv, Forall (λ f, rejected f = false) (inv_validFiles inv))
    (awaiting s)
  ∧ Forall (λ ev, ∀ f project, ev = CallUploadFile f project
                               → rejected f = false) (trace s).
Proof.
  intros Hrun.
  refine (run_invariant
            (λ s, Forall (λ inv, Forall (λ f, rejected f = false)
                                   (inv_validFiles inv)) (awaiting s)
                  ∧ Forall (λ ev, ∀ f project,
                              ev = CallUploadFile f project
                              → rejected f = false) (trace s))
            _ ls init s _ Hrun); [|by split; apply Forall_nil_2].
  clear. intros s l s' [Haw Htr] Hstep. step_inv Hstep; try done.
  - apply iterate_accepted; [|done..].
    apply Forall_forall. apply validFiles_accepted.
  - apply iterate_accepted; simpl.
    + by apply (Forall_lookup_1 _ _ _ _ Haw Hn).
    + by apply Forall_delete.
    + apply Forall_app. split; [done|]. by apply Forall_singleton.
  - apply iterate_accepted; simpl.
    + by apply (Forall_lookup_1 _ _ _ _ Haw Hn).
    + by apply Forall_delete.
    + apply Forall_app. split; [done|]. by apply Forall_singleton.
  - simpl. split; [done|]. apply Forall_app. split; [done|].
    destruct hasOnUploadComplete; [by apply Forall_singleton|done].
Qed.

Lemma entry_of_validateFile f :
  entry_of f = match validateFile f with
               | Some message => mkItem f 0 Status.error (Some message)
               | None => mkItem f 0 Status.pending None
               end.
Proof.
  rewrite validateFile_rejected. unfold entry_of. by destruct (rejected f).
Qed.

Lemma rejected_validateFile f : rejected f = false ↔ validateFile f = None.
Proof. rewrite validateFile_rejected. by destruct (rejected f). Qed.

(** X15.  What the queue is when a call of [handleFiles] reaches its
    first [await] (or returns): the entries that were there are
    untouched, and one entry per candidate follows them in the order of
    the candidates, in the [error] state with the message of
    [validateFile] and progress 0 when [validateFile] returns a message,
    [pending] with progress 0 and a null error otherwise; only the entry
    at the first new position is already turned to [uploading], and that
    whenever [validateFile] has passed some candidate of the batch,
    whichever it is.  The one call made is [uploadFile] for the first
    candidate that passed, and in no run is [uploadFile] called for a
    file to which [validateFile] gives a message. *)
Theorem X15_one_entry_per_candidate (files : list File.t) (s : Sys) :
  let base := length (uploadQueue s) in
  let s' := handleFiles (Some files) s in
  length (uploadQueue s') = base + length files
  ∧ (∀ k item, uploadQueue s !! k = Some item
               → uploadQueue s' !! k = Some item)
  ∧ (∀ j f, files !! j = Some f →
       uploadQueue s' !! (base + j)
       = Some ((if decide (j = 0 ∧ validFiles files ≠ [])
                then toUploading else id)
                 match validateFile f with
                 | Some message => mkItem f 0 Status.error (Some message)
                 | None => mkItem f 0 Status.pending None
                 end))
  ∧ trace s' = trace s ++ match validFiles files with
                          | f :: _ => [CallUploadFile f projectId]
                          | [] => []
                          end
  ∧ validFiles files = filter (λ f, validateFile f = None) files
  ∧ (∀ ls s0 f project,
       run init ls = Some s0 → CallUploadFile f project ∈ trace s0 →
       validateFile f = None).
Proof.
  intros base s'. subst base s'. rewrite handleFiles_unfold.
  rewrite iterate_uploadQueue, iterate_trace. simpl. unfold appendNew.
  split; [|split; [|split; [|split; [|split]]]].
  - destruct (validFiles files !! 0); rewrite ?length_map_at;
      by rewrite length_app, newQueue_entries, length_fmap.
  - intros k item Hk. pose proof (lookup_lt_Some _ _ _ Hk) as Hlt.
    destruct (validFiles files !! 0);
      rewrite ?lookup_map_at_ne by lia; by rewrite lookup_app_l.
  - intros j f Hf. rewrite <- entry_of_validateFile.
    assert ((uploadQueue s ++ newQueue files)
              !! (length (uploadQueue s) + j) = Some (entry_of f)) as Hnew.
    { rewrite lookup_app_r by lia.
      replace (length (uploadQueue s) + j - length (uploadQueue s))
        with j by lia.
      by rewrite newQueue_entries, list_lookup_fmap, Hf. }
    destruct (validFiles files) as [|g valid] eqn:Hvalid; simpl.
    + rewrite decide_False by (by intros [_ ?]). done.
    + rewrite lookup_map_at, Hnew. case_decide as Hj.
      * rewrite decide_True; [done|]. split; [lia|done].
      * rewrite decide_False; [done|]. intros [-> _]. done.
  - by destruct (validFiles files).
  - rewrite validFiles_filter. apply list_filter_iff.
    intros f. apply rejected_validateFile.
  - intros ls s0 f project Hrun Hin.
    destruct (run_calls_accepted ls s0 Hrun) as [_ Htr].
    rewrite Forall_forall in Htr. apply rejected_validateFile.
    by eapply Htr.
Qed.

Lemma fmap_file_map_at k g q :
  (∀ item, file (g item) = file item) →
  file <$> map_at k g q = file <$> q.
Proof. apply fmap_map_at. Qed.

(** C6.  The files of the queue entries, read from first to last,
    change in one step as follows: [handleFiles] adds the candidates at
    the end in their order; the fulfilment or failure of an upload and a
    timer callback change nothing, whichever entry they concern; a
    dismissal takes out the file at the dismissed position. *)
Theorem C6_queue_keeps_submission_order s l s' :
  step s l = Some s' →
  file <$> uploadQueue s' =
    match l with
    | Submit (Some files) => (file <$> uploadQueue s) ++ files
    | Dismiss index =>
        if decide (0 ≤ index < Z.of_nat (length (uploadQueue s)))%Z
        then delete (Z.to_nat index) (file <$> uploadQueue s)
        else file <$> uploadQueue s
    | _ => file <$> uploadQueue s
    end.
Proof.
  intros Hstep. step_inv Hstep; autorewrite with iterate; simpl.
  - assert (file <$> appendNew (newQueue files) (uploadQueue s)
            = (file <$> uploadQueue s) ++ files) as Happ.
    { unfold appendNew. rewrite fmap_app, newQueue_entries. f_equal.
      rewrite <- list_fmap_compose. rewrite <- (list_fmap_id files) at 2.
      apply list_fmap_ext. intros j f _. apply entry_of_file. }
    destruct (validFiles files !! 0); [|done].
    by rewrite fmap_file_map_at.
  - done.
  - destruct (valid !! S i); by rewrite !fmap_file_map_at.
  - destruct (valid !! S i); by rewrite !fmap_file_map_at.
  - by rewrite fmap_file_map_at.
  - case_decide as Hrange.
    + rewrite <- (Z2Nat.id index) at 1 by lia.
      rewrite removeFromQueue_delete. rewrite !delete_take_drop.
      by rewrite fmap_app, fmap_take, fmap_drop.
    + by rewrite removeFromQueue_out_of_range.
Qed.

Lemma count_app {A} (p : A → bool) l1 l2 :
  count p (l1 ++ l2) = count p l1 + count p l2.
Proof. induction l1 as [|x l1 IH]; simpl; [done|]. rewrite IH. lia. Qed.

Lemma length_delete_lookup {A} (l : list A) n x :
  l !! n = Some x → length l = S (length (delete n l)).
Proof.
  intros Hn. rewrite length_delete by eauto.
  apply lookup_lt_Some in Hn. lia.
Qed.

Lemma step_outstanding s l s' :
  step s l = Some s' →
  count is_call (trace s) = count is_settled (trace s) + length (awaiting s) →
  count is_call (trace s') = count is_settled (trace s') + length (awaiting s')
  ∧ length (awaiting s')
    ≤ length (awaiting s) + (if is_submit l then 1 else 0).
Proof.
  intros Hstep Hs. step_inv Hstep; autorewrite with iterate; simpl;
    rewrite ?count_app, ?length_app; simpl;
    try pose proof (length_delete_lookup _ _ _ Hn).
  - destruct (validFiles files !! 0); simpl; lia.
  - lia.
  - destruct (valid !! S i); simpl; lia.
  - destruct (valid !! S i); simpl; lia.
  - destruct hasOnUploadComplete; simpl; lia.
  - lia.
Qed.

Lemma run_outstanding ls s s' :
  run s ls = Some s' →
  count is_call (trace s) = count is_settled (trace s) + length (awaiting s) →
  count is_call (trace s') = count is_settled (trace s') + length (awaiting s')
  ∧ length (awaiting s') ≤ length (awaiting s) + count is_submit ls.
Proof.
  revert s. induction ls as [|l ls IH]; intros s Hrun Hs; simpl in Hrun.
  - injection Hrun as <-. simpl. split; [done|lia].
  - destruct (step s l) as [s1|] eqn:Hl; simpl in Hrun; [|done].
    destruct (step_outstanding _ _ _ Hl Hs) as [Hs1 Hlen].
    destruct (IH _ Hrun Hs1) as [Hs' Hlen']. split; [done|]. simpl.
    destruct (is_submit l); lia.
Qed.

(** C5 (as amended).  The uploads of one call of [handleFiles] are
    issued one after the other.  The call itself issues the request for
    its first accepted file only; the request for the next accepted
    file is issued when the awaited upload of the previous one has been
    fulfilled or has failed.  So in every run the uploads called and not
    yet settled are as many as the suspended invocations, at most one
    for each call of [handleFiles] so far. *)
Theorem C5_uploads_of_a_batch_are_serial :
  (∀ files s,
     trace (handleFiles (Some files) s)
     = trace s ++ match validFiles files with
                  | f :: _ => [CallUploadFile f projectId]
                  | [] => []
                  end)
  ∧ (∀ s n valid base i f l,
       awaiting s !! n = Some (mkInvocation valid base i) →
       valid !! i = Some f →
       (∃ fileId, l = Resolve n fileId) ∨ (∃ e, l = Reject n e) →
       ∃ s' response,
         step s l = Some s'
         ∧ trace s'
           = trace s ++ UploadSettled f response
               :: match valid !! S i with
                  | Some g => [CallUploadFile g projectId]
                  | None => []
                  end)
  ∧ (∀ ls s,
       run init ls = Some s →
       count is_call (trace s)
       = count is_settled (trace s) + length (awaiting s)
       ∧ length (awaiting s) ≤ count is_submit ls).
Proof.
  split; [|split].
  - intros files s. unfold handleFiles.
    rewrite scan_pair, iterate_trace. simpl.
    by destruct (validFiles files).
  - intros s n valid base i f l Hn Hi [[fileId ->]|[e ->]]; simpl.
    + unfold resume_ok. rewrite Hn. simpl. rewrite Hi. simpl.
      eexists _, (Some fileId). split; [done|].
      rewrite iterate_trace. simpl. by rewrite <- app_assoc.
    + unfold resume_err. rewrite Hn. simpl. rewrite Hi. simpl.
      eexists _, None. split; [done|].
      rewrite iterate_trace. simpl. by rewrite <- app_assoc.
  - intros ls s Hrun. by apply (run_outstanding ls init s).
Qed.

(** * Further properties of the component and its neighbours *)

(** ** The extension [validateFile] reads *)

Lemma split_nonempty sep s : split sep s ≠ [].
Proof.
  destruct s as [|c rest]; simpl; [done|].
  destruct (Ascii.eqb c sep); [done|]. by destruct (split sep rest).
Qed.

Lemma split_append sep prefix rest :
  split sep (prefix +:+ String sep rest) = split sep prefix ++ split sep rest.
Proof.
  induction prefix as [|c prefix IH]; simpl.
  - by rewrite Ascii.eqb_refl.
  - destruct (Ascii.eqb c sep); [by rewrite IH|]. rewrite IH.
    pose proof (split_nonempty sep prefix).
    by destruct (split sep prefix).
Qed.

Lemma split_no_dot seg : has_dot seg = false → split "."%char seg = [seg].
Proof.
  induction seg as [|c seg IH]; simpl; [done|].
  intros [Hc Hseg]%orb_false_iff. rewrite Hc, (IH Hseg). done.
Qed.

Lemma fileExt_last_segment prefix seg size :
  has_dot seg = false →
  fileExt (File.mk (prefix +:+ String "."%char seg) size)
  = String "."%char (toLowerCase seg).
Proof.
  intros Hseg. unfold fileExt, pop. simpl.
  by rewrite split_append, last_app, (split_no_dot seg Hseg).
Qed.

Lemma fileExt_no_dot seg size :
  has_dot seg = false →
  fileExt (File.mk seg size) = String "."%char (toLowerCase seg).
Proof.
  intros Hseg. unfold fileExt, pop. simpl.
  by rewrite (split_no_dot seg Hseg).
Qed.

(** X1.  Only the text after the last dot of the name counts as the
    extension: whatever precedes it, further dots included, is ignored,
    and a name without a dot is its own extension.  So a name and its
    last dot-free segment get the same verdict at the same size. *)
Theorem X1_only_the_last_segment_decides prefix seg size :
  has_dot seg = false →
  fileExt (File.mk (prefix +:+ String "."%char seg) size)
  = String "."%char (toLowerCase seg)
  ∧ fileExt (File.mk seg size) = String "."%char (toLowerCase seg)
  ∧ validateFile (File.mk (prefix +:+ String "."%char seg) size)
    = validateFile (File.mk seg size).
Proof.
  intros Hseg. split; [by apply fileExt_last_segment|].
  split; [by apply fileExt_no_dot|].
  unfold validateFile.
  by rewrite fileExt_last_segment, fileExt_no_dot.
Qed.

Lemma lower_ascii_dot c :
  Ascii.eqb (lower_ascii c) "."%char = Ascii.eqb c "."%char.
Proof. by destruct c as [[] [] [] [] [] [] [] []]. Qed.

Lemma lower_ascii_idemp c : lower_ascii (lower_ascii c) = lower_ascii c.
Proof. by destruct c as [[] [] [] [] [] [] [] []]. Qed.

Lemma toLowerCase_idemp s : toLowerCase (toLowerCase s) = toLowerCase s.
Proof.
  induction s as [|c s IH]; simpl; [done|].
  by rewrite lower_ascii_idemp, IH.
Qed.

Lemma split_toLowerCase s :
  split "."%char (toLowerCase s) = toLowerCase <$> split "."%char s.
Proof.
  induction s as [|c s IH]; simpl; [done|].
  rewrite lower_ascii_dot, IH.
  destruct (Ascii.eqb c "."%char); [done|].
  pose proof (split_nonempty "."%char s). by destruct (split "."%char s).
Qed.

Lemma fileExt_toLowerCase name size :
  fileExt (File.mk (toLowerCase name) size) = fileExt (File.mk name size).
Proof.
  unfold fileExt, pop. simpl. rewrite split_toLowerCase, fmap_last.
  destruct (last (split "."%char name)); simpl; [|done].
  by rewrite toLowerCase_idemp.
Qed.

(** X2.  [validateFile] does not look at the case of the letters A-Z in
    the name: two names that are equal once put in lower case get the
    same verdict at the same size. *)
Theorem X2_validation_ignores_letter_case name1 name2 size :
  toLowerCase name1 = toLowerCase name2 →
  validateFile (File.mk name1 size) = validateFile (File.mk name2 size).
Proof.
  intros Hnames. unfold validateFile.
  rewrite <- (fileExt_toLowerCase name1), <- (fileExt_toLowerCase name2).
  by rewrite Hnames.
Qed.

(** ** Accepted files and [FILE_EXTENSION_MAP] *)

Lemma includes_elem_of arr x : includes arr x = true ↔ x ∈ arr.
Proof.
  unfold includes. rewrite existsb_exists. split.
  - intros (y & Hy & ->%String.eqb_eq). by apply list_elem_of_In.
  - intros Hx. exists x. split; [by apply list_elem_of_In|].
    apply String.eqb_refl.
Qed.

(** X12.  The own keys of [FILE_EXTENSION_MAP] are exactly the
    [ALLOWED_EXTENSIONS] of the uploader, so the extension of every file
    that passes [validateFile] has a type category. *)
Theorem X12_accepted_files_have_a_category (f : File.t) :
  validateFile f = None →
  is_Some (FILE_EXTENSION_MAP !! fileExt f)
  ∧ ∀ ext, is_Some (FILE_EXTENSION_MAP !! ext) ↔ ext ∈ ALLOWED_EXTENSIONS.
Proof.
  assert (Hkeys : ∀ ext, is_Some (FILE_EXTENSION_MAP !! ext)
                         ↔ ext ∈ ALLOWED_EXTENSIONS).
  { intros ext. split.
    - intros [ty Hty]. apply elem_of_list_to_map_2 in Hty.
      rewrite !elem_of_cons, elem_of_nil in Hty.
      apply list_elem_of_In. simpl.
      destruct Hty as [[= -> _]|[[= -> _]|[[= -> _]|[[= -> _]
        |[[= -> _]|[[= -> _]|[[= -> _]|[]]]]]]]]; tauto.
    - unfold ALLOWED_EXTENSIONS. rewrite !elem_of_cons, elem_of_nil.
      intros [->|[->|[->|[->|[->|[->|[->|[]]]]]]]]; vm_compute; eauto. }
  intros Hvalid. split; [|done]. apply Hkeys, includes_elem_of.
  unfold validateFile in Hvalid.
  by destruct (includes ALLOWED_EXTENSIONS (fileExt f)).
Qed.

(** ** Facts about the entries of every run *)

(** X3.  In every run, dismissals in flight and mixed batches included,
    the progress of an entry is the one that goes with its status: 0 for
    [pending] and [error], 50 for [uploading], 75 for [processing], 100
    for [completed]; it is never outside 0..100. *)
Theorem X3_status_determines_progress ls s item :
  run init ls = Some s → item ∈ uploadQueue s →
  progress item = status_progress (status item)
  ∧ (0 ≤ progress item ≤ 100)%Z.
Proof.
  intros Hrun Hitem.
  assert (Hall : Forall (λ item, progress item
                                 = status_progress (status item))
                   (uploadQueue s)).
  { refine (run_invariant
              (λ s, Forall (λ item, progress item
                                    = status_progress (status item))
                      (uploadQueue s)) _ ls init s _ Hrun);
      [|apply Forall_nil_2].
    clear. intros s l s' Hs Hstep.
    eapply step_Forall_entries; [..|exact Hs|exact Hstep]; try done.
    intros f. unfold entry_of. by destruct (rejected f). }
  rewrite Forall_forall in Hall. rewrite (Hall item Hitem).
  split; [done|]. destruct (status item); simpl; lia.
Qed.

(** ** Dismissals *)

Lemma delete_delete_lt {A} (i j : nat) (q : list A) :
  i < j → delete i (delete j q) = delete (j - 1) (delete i q).
Proof.
  revert i j. induction q as [|x q IH]; intros i j Hij.
  - by destruct i, j.
  - destruct j as [|j]; [lia|]. destruct i as [|i]; simpl.
    + by rewrite Nat.sub_0_r.
    + destruct j as [|j]; [lia|]. simpl. f_equal.
      rewrite (IH i (S j)) by lia. simpl. by rewrite Nat.sub_0_r.
Qed.

Lemma removeFromQueue_nonneg index prev :
  (0 ≤ index)%Z → removeFromQueue index prev = delete (Z.to_nat index) prev.
Proof.
  intros Hindex. rewrite <- (Z2Nat.id index) at 1 by done.
  apply removeFromQueue_delete.
Qed.

(** X8.  Two dismissals can be made in either order once the shift is
    taken into account: removing row [j] and then an earlier row [i]
    leaves the same queue as removing row [i] and then row [j - 1].  A
    dismissal shortens the queue by one exactly when its index is a
    position of the queue. *)
Theorem X8_dismissals_commute_up_to_the_shift
    (i j index : Z) (prev : list UploadProgress) :
  ((0 ≤ i < j)%Z →
   removeFromQueue i (removeFromQueue j prev)
   = removeFromQueue (j - 1) (removeFromQueue i prev))
  ∧ length (removeFromQueue index prev)
    = (if decide (0 ≤ index < Z.of_nat (length prev))%Z
       then length prev - 1 else length prev).
Proof.
  split.
  - intros Hij. rewrite !removeFromQueue_nonneg by lia.
    rewrite (delete_delete_lt (Z.to_nat i) (Z.to_nat j)) by lia.
    f_equal. lia.
  - case_decide as Hindex.
    + rewrite removeFromQueue_nonneg by lia.
      rewrite length_delete; [done|]. apply lookup_lt_is_Some. lia.
    + by rewrite removeFromQueue_out_of_range.
Qed.

(** ** The upload loop always comes to an end *)

Lemma run_awaiting_in_range ls s :
  run init ls = Some s →
  Forall (λ inv, inv_i inv < length (inv_validFiles inv)) (awaiting s).
Proof.
  intros Hrun.
  refine (run_invariant
            (λ s, Forall (λ inv, inv_i inv < length (inv_validFiles inv))
                    (awaiting s)) _ ls init s _ Hrun);
    [|apply Forall_nil_2].
  clear. intros s l s' Hs Hstep.
  assert (Hnext : ∀ valid base i s0,
            Forall (λ inv, inv_i inv < length (inv_validFiles inv))
              (awaiting s0) →
            Forall (λ inv, inv_i inv < length (inv_validFiles inv))
              (awaiting (iterate valid base i s0))).
  { intros valid base i s0 Hs0. rewrite iterate_awaiting.
    apply Forall_app. split; [done|].
    destruct (valid !! i) eqn:Hi; [|done].
    apply Forall_singleton. simpl. by eapply lookup_lt_Some. }
  step_inv Hstep; try done; apply Hnext; simpl; by try apply Forall_delete.
Qed.

Lemma pending_work_iterate valid base i s :
  pending_work (iterate valid base i s)
  = pending_work s
    + match valid !! i with
      | Some _ => 2 * (length valid - i)
      | None => 0
      end.
Proof.
  unfold pending_work. rewrite iterate_awaiting, iterate_timers.
  rewrite sum_list_with_app.
  destruct (valid !! i); simpl; unfold invocation_work; simpl; lia.
Qed.

Lemma pending_work_wake n inv s :
  awaiting s !! n = Some inv →
  pending_work s = invocation_work inv + pending_work (wake n s).
Proof.
  intros Hn. unfold pending_work. simpl.
  rewrite (delete_Permutation _ _ _ Hn) at 1. simpl. lia.
Qed.

(** X4.  In every run the pending work can always be carried on and is
    used up by it: each suspended invocation can take the fulfilment as
    well as the failure of its upload, each registered timer can fire,
    and every such step lowers [pending_work], which a dismissal leaves as
    it is.  So without new calls of [handleFiles] at most [pending_work]
    further steps of the loop and of its timers are possible. *)
Theorem X4_pending_work_is_enabled_and_decreases ls s :
  run init ls = Some s →
  (∀ n fileId e, n < length (awaiting s) →
     is_Some (step s (Resolve n fileId)) ∧ is_Some (step s (Reject n e)))
  ∧ (∀ n, n < length (timers s) → is_Some (step s (Fire n)))
  ∧ (∀ l s', step s l = Some s' →
       match l with
       | Submit _ => True
       | Dismiss _ => pending_work s' = pending_work s
       | _ => pending_work s' < pending_work s
       end)
  ∧ (pending_work s = 0 ↔ quiet s = true).
Proof.
  intros Hrun. pose proof (run_awaiting_in_range ls s Hrun) as Hwf.
  split; [|split; [|split]].
  - intros n fileId e [inv Hn]%lookup_lt_is_Some.
    pose proof (Forall_lookup_1 _ _ _ _ Hwf Hn) as Hi.
    apply lookup_lt_is_Some in Hi as [f Hi]. simpl.
    unfold resume_ok, resume_err. rewrite Hn. simpl. rewrite Hi. simpl.
    split; eauto.
  - intros n [tm Hn]%lookup_lt_is_Some. simpl. unfold fire.
    rewrite Hn. simpl. eauto.
  - intros l s' Hstep. step_inv Hstep; try done.
    + rewrite pending_work_iterate, (pending_work_wake n _ s Hn).
      unfold pending_work, invocation_work. simpl. rewrite length_app.
      simpl. apply lookup_lt_Some in Hi.
      destruct (valid !! S i); lia.
    + rewrite pending_work_iterate, (pending_work_wake n _ s Hn).
      unfold pending_work, invocation_work. simpl.
      apply lookup_lt_Some in Hi.
      destruct (valid !! S i); lia.
    + unfold pending_work. simpl.
      rewrite (length_delete_lookup _ _ _ Hn). lia.
  - unfold pending_work, quiet.
    destruct (awaiting s) as [|inv rest] eqn:Haw; simpl.
    + destruct (timers s); simpl; split; done || lia.
    + apply Forall_cons in Hwf as [Hi _]. unfold invocation_work.
      split; [lia|done].
Qed.

(** ** The completion callback *)

(** X6.  In every run [onUploadComplete] is called only with identifiers
    with which an upload was fulfilled, once per timer that has fired:
    when the prop is supplied, the calls made and the timers still
    pending are together as many as the uploads fulfilled; when it is not
    supplied, no call is made. *)
Theorem X6_one_callback_per_fulfilled_upload ls s :
  run init ls = Some s →
  (∀ fileId, CallOnUploadComplete fileId ∈ trace s →
     ∃ f, UploadSettled f (Some fileId) ∈ trace s)
  ∧ (if hasOnUploadComplete
     then count is_notify (trace s) + length (timers s)
          = count is_fulfilled (trace s)
     else count is_notify (trace s) = 0).
Proof.
  intros Hrun.
  cut ((Forall (λ ev, ∀ fileId, ev = CallOnUploadComplete fileId →
                 ∃ f, UploadSettled f (Some fileId) ∈ trace s) (trace s)
        ∧ Forall (λ tm, ∃ f, UploadSettled f (Some (tm_fileId tm))
                             ∈ trace s) (timers s))
       ∧ (if hasOnUploadComplete
          then count is_notify (trace s) + length (timers s)
               = count is_fulfilled (trace s)
          else count is_notify (trace s) = 0)).
  { intros [[Htr _] Hcount]. split; [|done]. intros fileId Hin.
    rewrite Forall_forall in Htr. by eapply Htr. }
  refine (run_invariant
            (λ s, (Forall (λ ev, ∀ fileId, ev = CallOnUploadComplete fileId →
                      ∃ f, UploadSettled f (Some fileId) ∈ trace s) (trace s)
                   ∧ Forall (λ tm, ∃ f, UploadSettled f (Some (tm_fileId tm))
                                        ∈ trace s) (timers s))
                  ∧ (if hasOnUploadComplete
                     then count is_notify (trace s) + length (timers s)
                          = count is_fulfilled (trace s)
                     else count is_notify (trace s) = 0))
            _ ls init s _ Hrun).
  2: { split; [split; apply Forall_nil_2|]. by destruct hasOnUploadComplete. }
  clear. intros s l s' [[Htr Htm] Hcount] Hstep.
  destruct (step_trace_grows _ _ _ Hstep) as [evs Hevs].
  assert (Hgrow : ∀ ev, ev ∈ trace s → ev ∈ trace s').
  { intros ev Hev. rewrite Hevs. apply elem_of_app. by left. }
  assert (Htr' : Forall (λ ev, ∀ fileId, ev = CallOnUploadComplete fileId →
                   ∃ f, UploadSettled f (Some fileId) ∈ trace s') (trace s)).
  { eapply Forall_impl; [exact Htr|]. intros ev Hev fileId Heq.
    destruct (Hev fileId Heq) as [f Hf]. eauto. }
  assert (Htm' : Forall (λ tm, ∃ f, UploadSettled f (Some (tm_fileId tm))
                                    ∈ trace s') (timers s)).
  { eapply Forall_impl; [exact Htm|]. intros tm [f Hf]. eauto. }
  clear Htr Htm Hevs Hgrow.
  step_inv Hstep; autorewrite with iterate in *; simpl in *;
    rewrite <- ?app_assoc in *.
  - split; [split; [|done]|].
    + rewrite Forall_app in *. split; [done|].
      destruct (validFiles files !! 0); [|done].
      by apply Forall_singleton.
    + rewrite !count_app.
      destruct hasOnUploadComplete, (validFiles files !! 0); simpl; lia.
  - done.
  - split; [split|].
    + apply Forall_app. split; [done|].
      apply Forall_cons. split; [done|].
      destruct (valid !! S i); [|done]. by apply Forall_singleton.
    + apply Forall_app. split; [done|]. apply Forall_singleton. simpl.
      exists f. apply elem_of_app. right. apply list_elem_of_here.
    + rewrite !count_app, length_app. simpl.
      destruct hasOnUploadComplete, (valid !! S i); simpl; lia.
  - split; [split; [|done]|].
    + apply Forall_app. split; [done|].
      apply Forall_cons. split; [done|].
      destruct (valid !! S i); [|done]. by apply Forall_singleton.
    + rewrite !count_app. simpl.
      destruct hasOnUploadComplete, (valid !! S i); simpl; lia.
  - split; [split|].
    + apply Forall_app. split; [done|].
      destruct hasOnUploadComplete; [|done]. apply Forall_singleton.
      intros fileId [= <-].
      by apply (Forall_lookup_1 _ _ _ _ Htm' Hn).
    + by apply Forall_delete.
    + rewrite !count_app. pose proof (length_delete_lookup _ _ _ Hn).
      destruct hasOnUploadComplete; simpl; lia.
  - done.
Qed.

(** ** Updates for a position that is gone *)

(** X7.  When the position remembered by a settling invocation or by a
    firing timer lies past the end of the queue (its row and enough rows
    before it have been dismissed), the step changes no entry, but the
    rest of it happens all the same: the fulfilment registers the timer
    for that position, and the timer passes the identifier to
    [onUploadComplete]. *)
Theorem X7_updates_past_the_end_are_dropped s l s' k :
  step s l = Some s' → queueIndex_of s l = Some k →
  length (uploadQueue s) ≤ k →
  uploadQueue s' = uploadQueue s
  ∧ match l with
    | Resolve n fileId =>
        ∃ f, timers s' = timers s ++ [mkTimer k f fileId]
    | Fire n =>
        ∃ tm, timers s !! n = Some tm
              ∧ trace s' = trace s ++ (if hasOnUploadComplete
                                        then [CallOnUploadComplete
                                                (tm_fileId tm)]
                                        else [])
    | _ => True
    end.
Proof.
  intros Hstep Hk Hlen. step_inv Hstep; simpl in Hk; try done.
  - rewrite Hn in Hk. simpl in Hk. injection Hk as <-.
    autorewrite with iterate. simpl. split; [|by exists f].
    destruct (valid !! S i);
      rewrite ?map_at_ge; rewrite ?length_map_at; done || lia.
  - rewrite Hn in Hk. simpl in Hk. injection Hk as <-.
    autorewrite with iterate. simpl. split; [|done].
    destruct (valid !! S i);
      rewrite ?map_at_ge; rewrite ?length_map_at; done || lia.
  - rewrite Hn in Hk. simpl in Hk. injection Hk as <-. simpl.
    split; [by rewrite map_at_ge|]. by exists tm.
Qed.

(** ** The queue against everything submitted *)

Lemma step_files s l s' :
  step s l = Some s' →
  (file <$> uploadQueue s') `sublist_of` (file <$> uploadQueue s) ++ candidates l
  ∧ (is_dismiss l = false →
     file <$> uploadQueue s' = (file <$> uploadQueue s) ++ candidates l).
Proof.
  intros Hstep.
  assert (Hnew : ∀ files, file <$> appendNew (newQueue files) (uploadQueue s)
                          = (file <$> uploadQueue s) ++ files).
  { intros files. unfold appendNew. rewrite fmap_app, newQueue_entries.
    f_equal. rewrite <- list_fmap_compose.
    rewrite <- (list_fmap_id files) at 2.
    apply list_fmap_ext. intros j f _. apply entry_of_file. }
  step_inv Hstep; autorewrite with iterate; simpl;
    rewrite ?app_nil_r.
  - assert (file <$> match validFiles files !! 0 with
                     | Some _ => map_at (length (uploadQueue s) + 0)
                                   toUploading
                                   (appendNew (newQueue files) (uploadQueue s))
                     | None => appendNew (newQueue files) (uploadQueue s)
                     end
            = (file <$> uploadQueue s) ++ files) as ->; [|done].
    destruct (validFiles files !! 0); by rewrite ?fmap_file_map_at, Hnew.
  - done.
  - destruct (valid !! S i); by rewrite !fmap_file_map_at.
  - destruct (valid !! S i); by rewrite !fmap_file_map_at.
  - by rewrite fmap_file_map_at.
  - split; [|done]. apply fmap_sublist.
    destruct (decide (0 ≤ index < Z.of_nat (length (uploadQueue s)))%Z).
    + rewrite <- (Z2Nat.id index) by lia. rewrite removeFromQueue_delete.
      apply sublist_delete.
    + by rewrite removeFromQueue_out_of_range.
Qed.

Lemma run_files ls s s' :
  run s ls = Some s' →
  (file <$> uploadQueue s') `sublist_of` (file <$> uploadQueue s) ++ submitted ls
  ∧ (forallb (λ l, negb (is_dismiss l)) ls = true →
     file <$> uploadQueue s' = (file <$> uploadQueue s) ++ submitted ls).
Proof.
  revert s. induction ls as [|l ls IH]; intros s Hrun; simpl in Hrun.
  - injection Hrun as <-. unfold submitted. simpl. by rewrite app_nil_r.
  - destruct (step s l) as [s1|] eqn:Hl; simpl in Hrun; [|done].
    destruct (step_files _ _ _ Hl) as [Hsub1 Heq1].
    destruct (IH _ Hrun) as [Hsub Heq].
    unfold submitted in *. rewrite bind_cons, app_assoc. split.
    + etrans; [exact Hsub|]. by apply sublist_app.
    + intros [Hl' Hls]%andb_true_iff. apply negb_true_iff in Hl'.
      by rewrite (Heq Hls), (Heq1 Hl').
Qed.

(** X13.  In every run the files of the queue, read from first to last,
    are the candidates of all calls of [handleFiles] in the order they
    were handed over, with some of them left out; none is left out in a
    run without dismissals. *)
Theorem X13_queue_is_what_was_submitted_in_order ls s :
  run init ls = Some s →
  (file <$> uploadQueue s) `sublist_of` submitted ls
  ∧ (forallb (λ l, negb (is_dismiss l)) ls = true →
     file <$> uploadQueue s = submitted ls).
Proof. intros Hrun. by apply (run_files ls init s). Qed.

(** ** Nothing stays unfinished without a transfer that will finish it *)

Lemma unfinished_spec item :
  unfinished item = true
  ↔ status item ≠ Status.completed ∧ status item ≠ Status.error.
Proof.
  unfold unfinished, is_status.
  by rewrite negb_true_iff, orb_false_iff, !bool_decide_eq_false.
Qed.

Lemma finished_spec item :
  unfinished item = false
  ↔ status item = Status.completed ∨ status item = Status.error.
Proof.
  unfold unfinished, is_status.
  by rewrite negb_false_iff, orb_true_iff, !bool_decide_eq_true.
Qed.

Lemma inv_slots_positions valid base i :
  i < length valid →
  (inv_slots (mkInvocation valid base i)).*1
  = seq (base + i) (length valid - i).
Proof.
  intros Hi. destruct (lookup_lt_is_Some_2 _ _ Hi) as [f Hf].
  rewrite (inv_slots_unfold _ _ _ _ Hf).
  rewrite fmap_cons, queued_slots_fst, length_drop.
  replace (length valid - i) with (S (length valid - S i)) by lia.
  simpl. by rewrite Nat.add_succ_r.
Qed.

Lemma elem_of_slots_iterate valid base i s k :
  k ∈ (slots (iterate valid base i s)).*1
  ↔ base + i ≤ k < base + length valid ∨ k ∈ (slots s).*1.
Proof.
  unfold iterate. destruct (valid !! i) as [f|] eqn:Hi; cbv zeta.
  - rewrite slots_suspend, slots_emit, slots_setUploadQueue.
    rewrite fmap_app, elem_of_app.
    rewrite inv_slots_positions by (by eapply lookup_lt_Some).
    rewrite elem_of_seq. apply lookup_lt_Some in Hi.
    split; (intros [?|?]; [left; lia|by right]).
  - apply lookup_ge_None in Hi. split; [by right|].
    intros [?|?]; [lia|done].
Qed.

Lemma aligned_accepted_prefix files j f :
  aligned files = true → files !! j = Some f → rejected f = false →
  j < length (validFiles files).
Proof.
  rewrite validFiles_filter. revert j.
  induction files as [|g files IH]; intros j Hal Hj Hacc; [done|].
  simpl in Hal. rewrite filter_cons. destruct (rejected g) eqn:Hg.
  - exfalso. destruct j as [|j]; simpl in Hj.
    + injection Hj as ->. congruence.
    + rewrite forallb_forall in Hal. rewrite (Hal f) in Hacc; [done|].
      apply list_elem_of_In. by eapply list_elem_of_lookup_2.
  - rewrite decide_True by done. destruct j as [|j]; simpl in *; [lia|].
    specialize (IH j Hal Hj Hacc). lia.
Qed.

Lemma step_owned_entry s l s' :
  permitted aligned s l = true → step s l = Some s' →
  owned P_entry Q_error [] s → owned P_entry Q_error [] s'.
Proof.
  apply (step_owned P_entry Q_error aligned).
  - by intros f item ->.
  - by intros f item ->.
  - by intros f item ->.
  - by intros f item ->.
  - by intros f item ->.
  - by intros e item.
  - intros files j f Hal Hj.
    destruct (aligned_lookup _ _ _ Hal Hj) as [Hf Hacc].
    exists (entry_of f). split.
    + by rewrite newQueue_entries, list_lookup_fmap, Hf.
    + unfold entry_of, P_entry. by rewrite Hacc.
  - intros files item. rewrite newQueue_entries.
    intros (f & -> & _)%list_elem_of_fmap. apply entry_of_Q_error.
Qed.

Lemma step_reserved s l s' :
  owned P_entry Q_error [] s → reserved s →
  permitted aligned s l = true → step s l = Some s' → reserved s'.
Proof.
  intros Hs Hres Hl Hstep. step_inv Hstep; simpl in Hl.
  - intros k item Hitem Hunf. apply elem_of_slots_iterate.
    rewrite slots_setUploadQueue.
    rewrite iterate_uploadQueue in Hitem. simpl in Hitem.
    assert (∃ e0, appendNew (newQueue files) (uploadQueue s) !! k = Some e0
                  ∧ (unfinished e0 = true
                     ∨ (k = length (uploadQueue s) + 0
                        ∧ is_Some (validFiles files !! 0))))
      as (e0 & He0 & Hcase).
    { destruct (validFiles files !! 0) as [g|] eqn:Hg.
      - rewrite lookup_map_at in Hitem. case_decide as Hk.
        + destruct (appendNew _ _ !! k) as [e0|]; [|done].
          exists e0. split; [done|]. right. by split.
        + exists item. by split; [|left].
      - exists item. by split; [|left]. }
    unfold appendNew in He0.
    destruct (decide (k < length (uploadQueue s))) as [Hlt|Hge].
    + right. rewrite lookup_app_l in He0 by done.
      destruct Hcase as [Hu|[-> _]]; [|lia]. by apply (Hres k e0).
    + left. rewrite lookup_app_r in He0 by lia.
      rewrite newQueue_entries, list_lookup_fmap in He0.
      destruct (files !! (k - length (uploadQueue s))) as [f|] eqn:Hf;
        [|done].
      simpl in He0. injection He0 as <-.
      assert (rejected f = false) as Hacc.
      { destruct Hcase as [Hu|[-> [g Hg]]].
        - apply unfinished_spec in Hu as [_ Hu]. unfold entry_of in Hu.
          by destruct (rejected f).
        - destruct (aligned_lookup _ _ _ Hl Hg) as [Hg' Hacc].
          replace (length (uploadQueue s) + 0 - length (uploadQueue s))
            with 0 in Hf by lia.
          congruence. }
      pose proof (aligned_accepted_prefix _ _ _ Hl Hf Hacc). lia.
  - done.
  - intros k item' Hitem' Hunf.
    rewrite iterate_uploadQueue in Hitem'. simpl in Hitem'.
    assert (is_Some (uploadQueue s !! k)) as [item Hitem].
    { apply lookup_lt_is_Some. apply lookup_lt_Some in Hitem'.
      by destruct (valid !! S i); rewrite ?length_map_at in Hitem'. }
    apply elem_of_slots_iterate.
    rewrite slots_setTimeout, slots_setUploadQueue, slots_emit.
    rewrite fmap_cons, elem_of_cons. simpl.
    destruct (resumed_position P_entry Q_error s n valid base i f
                toProcessing k item item' Hs Hn Hi Hitem Hitem')
      as [[Hne ->]|[(h & -> & Hh & _)|(-> & _)]].
    + pose proof (Hres k item Hitem Hunf) as Hk.
      rewrite (slots_wake _ _ _ Hn), fmap_app, elem_of_app in Hk.
      rewrite inv_slots_positions in Hk by (by eapply lookup_lt_Some).
      rewrite elem_of_seq in Hk. apply lookup_lt_Some in Hi.
      destruct Hk as [Hk|Hk]; [left; lia|right; by right].
    + left. apply lookup_lt_Some in Hh. lia.
    + right. by left.
  - intros k item' Hitem' Hunf.
    rewrite iterate_uploadQueue in Hitem'. simpl in Hitem'.
    assert (is_Some (uploadQueue s !! k)) as [item Hitem].
    { apply lookup_lt_is_Some. apply lookup_lt_Some in Hitem'.
      by destruct (valid !! S i); rewrite ?length_map_at in Hitem'. }
    apply elem_of_slots_iterate.
    rewrite slots_setUploadQueue, slots_emit.
    destruct (resumed_position P_entry Q_error s n valid base i f
                (toError e) k item item' Hs Hn Hi Hitem Hitem')
      as [[Hne ->]|[(h & -> & Hh & _)|(-> & _ & ->)]].
    + pose proof (Hres k item Hitem Hunf) as Hk.
      rewrite (slots_wake _ _ _ Hn), fmap_app, elem_of_app in Hk.
      rewrite inv_slots_positions in Hk by (by eapply lookup_lt_Some).
      rewrite elem_of_seq in Hk. apply lookup_lt_Some in Hi.
      destruct Hk as [Hk|Hk]; [left; lia|by right].
    + left. apply lookup_lt_Some in Hh. lia.
    + apply unfinished_spec in Hunf as [_ Hunf]. by destruct Hunf.
  - intros k item' Hitem' Hunf. simpl in Hitem'.
    rewrite lookup_map_at in Hitem'. case_decide as Hk.
    + destruct (uploadQueue s !! k) as [item|]; [|done].
      injection Hitem' as <-.
      apply unfinished_spec in Hunf as [Hunf _]. by destruct Hunf.
    + pose proof (Hres k item' Hitem' Hunf) as Hin.
      rewrite (slots_expire _ _ _ Hn), fmap_cons, elem_of_cons in Hin.
      destruct Hin as [Heq|Hin]; [by destruct Hk|done].
  - intros k item Hitem Hunf. exfalso.
    assert (Forall (λ it, unfinished it = false) (uploadQueue s)) as Hall.
    { apply Forall_lookup. intros j it Hj.
      destruct (unfinished it) eqn:Hu; [|done].
      pose proof (Hres j it Hj Hu) as Hin.
      rewrite (slots_quiet s Hl) in Hin. by apply elem_of_nil in Hin. }
    apply (Forall_removeFromQueue _ index) in Hall.
    pose proof (Forall_lookup_1 _ _ _ _ Hall Hitem). simpl in *. congruence.
Qed.

Lemma run_reserved ls s s' :
  permitted_run aligned s ls = true → run s ls = Some s' →
  owned P_entry Q_error [] s → reserved s → reserved s'.
Proof.
  revert s. induction ls as [|l ls IH]; intros s Hls Hrun Hs Hres;
    simpl in *.
  - by injection Hrun as <-.
  - destruct (step s l) as [s1|] eqn:Hstep; simpl in Hrun; [|done].
    apply andb_true_iff in Hls as [Hl Hls].
    eapply IH; [done..| |].
    + by eapply step_owned_entry.
    + by eapply step_reserved.
Qed.

(** X5.  In a run in which rows are dismissed only while nothing is
    pending and no rejected file precedes an accepted one in a batch,
    every entry that is neither [completed] nor in the [error] state is
    the entry of a transfer still under way, for its own file: it is
    [uploading] at the position of the upload a suspended invocation
    awaits, [pending] at the position of a later file of that invocation,
    or [processing] at the position of a registered timer.  So once no
    invocation is suspended and no timer is registered, every entry is
    [completed] or in the [error] state. *)
Theorem X5_unfinished_entries_have_a_transfer_under_way ls s :
  clean init ls = true → run init ls = Some s →
  (∀ k item,
     uploadQueue s !! k = Some item → unfinished item = true →
     (∃ n inv,
        awaiting s !! n = Some inv
        ∧ inv_base inv + inv_i inv ≤ k
        ∧ inv_validFiles inv !! (k - inv_base inv) = Some (file item)
        ∧ status item = (if decide (k = inv_base inv + inv_i inv)
                         then Status.uploading else Status.pending))
     ∨ (∃ n tm,
          timers s !! n = Some tm ∧ tm_queueIndex tm = k
          ∧ tm_file tm = file item ∧ status item = Status.processing))
  ∧ (quiet s = true →
     ∀ item, item ∈ uploadQueue s →
             status item = Status.completed ∨ status item = Status.error).
Proof.
  intros Hclean Hrun.
  pose proof (run_owned_entry ls s Hclean Hrun) as Hs.
  assert (reserved s) as Hres.
  { eapply run_reserved; [exact Hclean|exact Hrun|apply init_owned|].
    by intros k item Hk. }
  split.
  - intros k item Hitem Hunf.
    pose proof (Hres k item Hitem Hunf) as Hk.
    apply list_elem_of_fmap in Hk as ([k' [st f]] & -> & Hc).
    pose proof (owned_slot P_entry Q_error s _ item Hs Hc Hitem) as HP.
    unfold P_entry in HP. simpl in HP, Hitem |- *.
    unfold slots in Hc. apply elem_of_app in Hc as [Hc|Hc].
    + left. apply list_elem_of_bind in Hc as (inv & Hc & Hinv).
      apply list_elem_of_lookup in Hinv as [n Hn]. exists n, inv.
      split; [done|].
      destruct (owned_awaiting P_entry Q_error s n inv Hs Hn) as [f0 Hf0].
      destruct inv as [valid base i]. simpl in *.
      rewrite (inv_slots_unfold _ _ _ _ Hf0) in Hc.
      apply elem_of_cons in Hc as [Hc|Hc].
      * injection Hc as -> -> ->. subst item. simpl.
        rewrite decide_True by done. split; [lia|]. split; [|done].
        by replace (base + i - base) with i by lia.
      * apply list_elem_of_lookup in Hc as [j Hj].
        unfold queued_slots in Hj. rewrite list_lookup_imap in Hj.
        destruct (drop (S i) valid !! j) as [g|] eqn:Hg; [|done].
        simpl in Hj. injection Hj as <- <- <-.
        rewrite lookup_drop in Hg. subst item. simpl.
        rewrite decide_False by lia. split; [lia|]. split; [|done].
        by replace (base + S i + j - base) with (S i + j) by lia.
    + right. apply list_elem_of_fmap in Hc as (tm & Hc & Htm).
      apply list_elem_of_lookup in Htm as [n Hn]. exists n, tm.
      unfold timer_slot in Hc. injection Hc as -> -> ->. by subst item.
  - intros Hq item Hin. apply list_elem_of_lookup in Hin as [k Hk].
    apply finished_spec. destruct (unfinished item) eqn:Hu; [|done].
    pose proof (Hres k item Hk Hu) as Hin.
    rewrite (slots_quiet s Hq) in Hin. by apply elem_of_nil in Hin.
Qed.

(** ** The rows of the queue list *)

(** X9.  A row carries exactly one badge class and one badge label
    whatever the entry is.  In a run in which rows are dismissed only
    while nothing is pending and no rejected file precedes an accepted
    one in a batch, the progress bar is rendered exactly for the entries
    without an error message, so a row never shows both the bar and the
    message; the message is rendered only in the [error] state. *)
Theorem X9_a_row_never_shows_bar_and_message (item : UploadProgress) :
  length (row_badge_classes (render_row item)) = 1
  ∧ length (row_badge_labels (render_row item)) = 1
  ∧ ∀ ls s,
      clean init ls = true → run init ls = Some s → item ∈ uploadQueue s →
      row_progress (render_row item)
      = match error item with
        | Some _ => None
        | None => Some (progress item)
        end
      ∧ (is_Some (row_error (render_row item)) →
         row_progress (render_row item) = None
         ∧ status item = Status.error).
Proof.
  unfold render_row. simpl.
  split; [by destruct (status item)|].
  split; [by destruct (status item)|].
  intros ls s Hclean Hrun Hin.
  destruct (run_owned_entry ls s Hclean Hrun) as (_ & _ & HQ & _).
  rewrite Forall_forall in HQ. specialize (HQ item Hin).
  unfold Q_error in HQ. unfold is_status.
  destruct (decide (status item = Status.error)) as [He|He].
  - rewrite bool_decide_eq_true_2 by done. simpl.
    pose proof (proj2 HQ He) as Herr.
    by destruct (error item).
  - rewrite bool_decide_eq_false_2 by done. simpl.
    destruct (error item) as [msg|] eqn:Hmsg.
    + exfalso. by apply He, HQ.
    + split; [done|]. simpl. by intros [? ?].
Qed.

(** ** The project every upload is made for *)

Lemma run_calls_project ls s :
  run init ls = Some s →
  Forall (λ ev, ∀ f project, ev = CallUploadFile f project
                             → project = projectId) (trace s).
Proof.
  intros Hrun.
  refine (run_invariant
            (λ s, Forall (λ ev, ∀ f project, ev = CallUploadFile f project
                                             → project = projectId)
                    (trace s))
            _ ls init s _ Hrun); [|apply Forall_nil_2].
  clear. intros s l s' Htr Hstep.
  step_inv Hstep; try done; rewrite ?iterate_trace; simpl;
    rewrite ?Forall_app; repeat split; try done;
    try (by apply Forall_singleton);
    try (destruct (_ !! _); [apply Forall_singleton|done];
         by intros ? ? [= _ <-]).
  - destruct (valid !! S i); [apply Forall_singleton|done].
    by intros ? ? [= _ <-].
  - destruct (valid !! S i); [apply Forall_singleton|done].
    by intros ? ? [= _ <-].
  - destruct hasOnUploadComplete; [by apply Forall_singleton|done].
Qed.

End Controller.

(** * The workspace page around the component, and the file card *)

Local Close Scope string_scope.

(** X14.  With the [projectId] the page hands to the component,
    [selectedProjectId || undefined], and as long as the selection stays
    the same, every call of [uploadFile] is made for that project; the
    empty string is never passed as a project, and no project is passed
    exactly when the selection is [null] or empty. *)
Theorem X14_uploads_are_made_for_the_selected_project
    (formatFileSize : Z → string) (selectedProjectId : option string)
    (hasOnUploadComplete : bool) ls s f project :
  run formatFileSize (uploader_projectId selectedProjectId)
    hasOnUploadComplete init ls = Some s →
  CallUploadFile f project ∈ trace s →
  project = uploader_projectId selectedProjectId
  ∧ project ≠ Some ""%string
  ∧ (project = None
     ↔ selectedProjectId = None ∨ selectedProjectId = Some ""%string).
Proof.
  intros Hrun Hin.
  pose proof (run_calls_project _ _ _ ls s Hrun) as Hall.
  rewrite Forall_forall in Hall.
  rewrite (Hall _ Hin f project eq_refl).
  split; [done|]. unfold uploader_projectId, truthy.
  destruct selectedProjectId as [p|];
    [|split; [done|]; split; [by left|done]].
  destruct (String.eqb_spec p "") as [->|Hp]; simpl.
  - split; [done|]. split; [by right|done].
  - split; [congruence|]. split; [done|]. intros [?|?]; congruence.
Qed.

(** ** [uploadedFiles] and [selectedFile] *)

Lemma uploadedFiles_after_snoc calls fileId time :
  uploadedFiles_after (calls ++ [(fileId, time)])
  = handleUploadComplete time fileId (uploadedFiles_after calls).
Proof. unfold uploadedFiles_after. by rewrite fold_left_app. Qed.

Lemma uploadedFiles_after_ids calls :
  FileMetadata.id <$> uploadedFiles_after calls = reverse calls.*1.
Proof.
  induction calls as [|[fileId time] calls IH] using rev_ind; [done|].
  rewrite uploadedFiles_after_snoc, fmap_app, reverse_app.
  unfold handleUploadComplete. by rewrite fmap_cons, IH.
Qed.

Lemma uploadedFiles_after_summaries calls :
  Forall (λ file, FileMetadata.aiSummary file = None)
    (uploadedFiles_after calls).
Proof.
  induction calls as [|[fileId time] calls IH] using rev_ind.
  - apply Forall_nil_2.
  - rewrite uploadedFiles_after_snoc. by apply Forall_cons.
Qed.

Lemma selectedFile_None files : selectedFile None files = None.
Proof. unfold selectedFile. by induction files. Qed.

Lemma selectedFile_unknown fileId files :
  fileId ∉ FileMetadata.id <$> files → selectedFile (Some fileId) files = None.
Proof.
  unfold selectedFile. induction files as [|file files IH]; [done|].
  rewrite fmap_cons, not_elem_of_cons. intros [Hne Hin]. simpl.
  rewrite bool_decide_eq_false_2 by congruence. by apply IH.
Qed.

(** X10.  [uploadedFiles] lists one placeholder per call of
    [onUploadComplete], the newest first, none of them with a summary to
    preview.  Selecting an identifier gives the placeholder of the latest
    call made with it, also when the identifier was reported more than
    once; selecting nothing, or an identifier never reported, gives
    [undefined]. *)
Theorem X10_selection_finds_the_latest_placeholder
    calls1 fileId time calls2 :
  fileId ∉ calls2.*1 →
  let calls := calls1 ++ (fileId, time) :: calls2 in
  let files := uploadedFiles_after calls in
  FileMetadata.id <$> files = reverse calls.*1
  ∧ selectedFile (Some fileId) files
    = head (handleUploadComplete time fileId [])
  ∧ selectedFile None files = None
  ∧ (∀ other, other ∉ calls.*1 → selectedFile (Some other) files = None)
  ∧ Forall (λ file, summary_preview (FileMetadata.aiSummary file) = None)
      files.
Proof.
  intros Hnew calls files. subst files.
  split; [apply uploadedFiles_after_ids|].
  split; [|split; [apply selectedFile_None|split]].
  - subst calls. clear -Hnew.
    induction calls2 as [|[other time'] calls2 IH] using rev_ind.
    + by rewrite uploadedFiles_after_snoc; simpl;
        rewrite bool_decide_eq_true_2.
    + rewrite fmap_app, not_elem_of_app in Hnew.
      destruct Hnew as [Hnew Hother].
      rewrite app_comm_cons, app_assoc, uploadedFiles_after_snoc.
      unfold selectedFile, handleUploadComplete at 1. simpl.
      rewrite bool_decide_eq_false_2.
      * by apply IH.
      * intros [= ->]. apply Hother. simpl. apply list_elem_of_here.
  - intros other Hother. apply selectedFile_unknown.
    rewrite uploadedFiles_after_ids. by rewrite elem_of_reverse.
  - eapply Forall_impl; [apply uploadedFiles_after_summaries|].
    by intros file ->.
Qed.

(** ** The preview of the summary on a file card *)



(** * Examples: the theorems at concrete inputs, and the runs on which the
    statements C1, C2, C3, C4, C5, C7 and C8 fail as they were made *)

Local Open Scope string_scope.
Local Open Scope list_scope.

(** What [validateFile] takes for the extension. *)
Example fileExt_examples :
  fileExt (File.mk "REPORT.CSV" 1) = ".csv"
  ∧ fileExt (File.mk "archive.tar.gz" 1) = ".gz"
  ∧ fileExt (File.mk "notes." 1) = "."
  ∧ fileExt (File.mk "csv" 1) = ".csv".
Proof. repeat split; reflexivity. Qed.

(** The scenarios of the description: a 10 KB [report.csv] ends
    [completed] with progress 100 and its identifier is passed on;
    [malware.exe] and a [bigdata.xlsx] of 60 MiB are rejected with the
    message of the rule they break; the middle one of three rows is
    dismissed. *)
Example scenario_report_csv :
  run sampleFormat None true init
    [Submit (Some [report_csv]); Resolve 0 "file-1"; Fire 0]
  = Some {| uploadQueue := [mkItem report_csv 100 Status.completed None];
            awaiting := [];
            timers := [];
            trace := [CallUploadFile report_csv None;
                      UploadSettled report_csv (Some "file-1");
                      CallOnUploadComplete "file-1"] |}.
Proof. vm_compute. reflexivity. Qed.

Example scenario_rejected_files :
  run sampleFormat None true init [Submit (Some [malware_exe; bigdata_xlsx])]
  = Some {| uploadQueue :=
              [mkItem malware_exe 0 Status.error
                 (Some "File type not supported. Allowed: .csv, .xlsx, .xls, .pdf, .png, .jpg, .jpeg");
               mkItem bigdata_xlsx 0 Status.error
                 (Some ("File too large. Maximum size: "
                        +:+ sampleFormat 52428800))];
            awaiting := [];
            timers := [];
            trace := [] |}.
Proof. vm_compute. reflexivity. Qed.

Example scenario_dismiss_second_of_three :
  removeFromQueue 1
    [mkItem a_csv 100 Status.completed None;
     mkItem malware_exe 0 Status.error (Some type_error);
     mkItem b_pdf 50 Status.uploading None]
  = [mkItem a_csv 100 Status.completed None;
     mkItem b_pdf 50 Status.uploading None].
Proof. reflexivity. Qed.

(** C1.  A file named [pdf] has no extension, so none in the allow-list,
    and is 10 KB in size.  [split(".")] gives the one segment [pdf], which
    [pop] returns, and [validateFile] takes [.pdf] for the extension and
    lets the file pass: its entry is appended [pending] and not in the
    [error] state, it is kept in [validFiles], and [uploadFile] is called
    for it before [handleFiles] reaches its first [await], whereas [malware.exe] gets
    the message of the type rule. *)
Theorem C1_name_without_extension_is_uploaded :
  split "."%char "pdf" = ["pdf"]
  ∧ fileExt (File.mk "pdf" 10240) = ".pdf"
  ∧ validateFile sampleFormat (File.mk "pdf" 10240) = None
  ∧ newQueue sampleFormat [File.mk "pdf" 10240]
    = [mkItem (File.mk "pdf" 10240) 0 Status.pending None]
  ∧ validFiles sampleFormat [File.mk "pdf" 10240] = [File.mk "pdf" 10240]
  ∧ run sampleFormat None true init [Submit (Some [File.mk "pdf" 10240])]
    = Some {| uploadQueue :=
                [mkItem (File.mk "pdf" 10240) 50 Status.uploading None];
              awaiting := [mkInvocation [File.mk "pdf" 10240] 0 0];
              timers := [];
              trace := [CallUploadFile (File.mk "pdf" 10240) None] |}
  ∧ validateFile sampleFormat (File.mk "malware.exe" 10240)
    = Some type_error.
Proof. repeat split; vm_compute; reflexivity. Qed.

(** X15 on the batch [malware.exe, report.csv] submitted to an empty
    queue: two entries, the second that of [report.csv], and the one
    upload called is that of [report.csv]. *)
Lemma X15_witness :
  uploadQueue (handleFiles sampleFormat None
                 (Some [malware_exe; report_csv]) init) !! (0 + 1)
  = Some (id (mkItem report_csv 0 Status.pending None))
  ∧ validateFile sampleFormat report_csv = None.
Proof.
  destruct (X15_one_entry_per_candidate sampleFormat None true
              [malware_exe; report_csv] init)
    as (_ & _ & Hentry & _ & _ & Hcalls).
  split.
  - apply (Hentry 1 report_csv). reflexivity.
  - apply (Hcalls [Submit (Some [malware_exe; report_csv])]
             {| uploadQueue :=
                  [mkItem malware_exe 50 Status.uploading (Some type_error);
                   mkItem report_csv 0 Status.pending None];
                awaiting := [mkInvocation [report_csv] 0 0];
                timers := [];
                trace := [CallUploadFile report_csv None] |}
             report_csv None).
    + reflexivity.
    + apply list_elem_of_here.
Defined.

(** An accepted file of exactly 52,428,800 bytes passes. *)
Lemma C10_witness :
  includes ALLOWED_EXTENSIONS (fileExt exact_xlsx) = true
  ∧ validateFile sampleFormat exact_xlsx = None.
Proof.
  split; [reflexivity|].
  destruct (C10_size_ceiling_is_strict sampleFormat exact_xlsx eq_refl)
    as (_ & Hpass & _).
  apply Hpass. simpl. lia.
Defined.

(** C2.  In the batch [malware.exe, report.csv] the only accepted file is
    [report.csv], entry 1 of the queue; its [validFiles] index is 0, so
    [queueIndex] is 0 and every update of its lifecycle rewrites entry 0,
    the entry of [malware.exe], while entry 1 stays [pending]. *)
Theorem C2_mixed_batch_rewrites_another_entry :
  newQueue sampleFormat [malware_exe; report_csv]
  = [mkItem malware_exe 0 Status.error (Some type_error);
     mkItem report_csv 0 Status.pending None]
  ∧ validFiles sampleFormat [malware_exe; report_csv] = [report_csv]
  ∧ uploadQueue <$>
      run sampleFormat None true init
        [Submit (Some [malware_exe; report_csv])]
    = Some [mkItem malware_exe 50 Status.uploading (Some type_error);
            mkItem report_csv 0 Status.pending None]
  ∧ uploadQueue <$>
      run sampleFormat None true init
        [Submit (Some [malware_exe; report_csv]); Resolve 0 "file-1"]
    = Some [mkItem malware_exe 75 Status.processing (Some type_error);
            mkItem report_csv 0 Status.pending None]
  ∧ uploadQueue <$>
      run sampleFormat None true init
        [Submit (Some [malware_exe; report_csv]); Resolve 0 "file-1"; Fire 0]
    = Some [mkItem malware_exe 100 Status.completed (Some type_error);
            mkItem report_csv 0 Status.pending None].
Proof. repeat split; vm_compute; reflexivity. Qed.



(** Without a failure, too, the progress of an entry can drop once a row
    is dismissed while uploads are awaited: the entry of [b.pdf], already
    [processing], moves to position 1 and is set back to [uploading] by
    the invocation that owns that position. *)
Example progress_drops_after_dismissal :
  uploadQueue <$>
    run sampleFormat None true init
      [Submit (Some [report_csv; a_csv]); Submit (Some [b_pdf]);
       Resolve 1 "file-b"; Dismiss 0]
  = Some [mkItem a_csv 0 Status.pending None;
          mkItem b_pdf 75 Status.processing None]
  ∧ uploadQueue <$>
      run sampleFormat None true init
        [Submit (Some [report_csv; a_csv]); Submit (Some [b_pdf]);
         Resolve 1 "file-b"; Dismiss 0; Resolve 0 "file-1"]
    = Some [mkItem a_csv 75 Status.processing None;
            mkItem b_pdf 50 Status.uploading None].
Proof. split; vm_compute; reflexivity. Qed.

(** In a batch with a rejected file before an accepted one, the failure
    of the accepted file's upload is written to the rejected file's
    entry. *)
Example mixed_batch_failure_on_another_entry :
  uploadQueue <$>
    run sampleFormat None true init
      [Submit (Some [malware_exe; report_csv]); Reject 0 network_error]
  = Some [mkItem malware_exe 0 Status.error (Some "Network Error");
          mkItem report_csv 0 Status.pending None].
Proof. vm_compute. reflexivity. Qed.



(** C5 fails as stated: after [handleFiles] on two accepted files only the
    first upload has been called; the second is called when the first has
    settled. *)
Lemma C5_counterexample :
  validFiles sampleFormat [a_csv; b_pdf] = [a_csv; b_pdf]
  ∧ trace <$>
      run sampleFormat None true init [Submit (Some [a_csv; b_pdf])]
    = Some [CallUploadFile a_csv None]
  ∧ trace <$>
      run sampleFormat None true init
        [Submit (Some [a_csv; b_pdf]); Resolve 0 "file-a"]
    = Some [CallUploadFile a_csv None; UploadSettled a_csv (Some "file-a");
            CallUploadFile b_pdf None].
Proof. repeat split; vm_compute; reflexivity. Qed.

(** The amended C5 after the first of two uploads has been fulfilled: two
    uploads called, one settled, one invocation suspended. *)
Lemma C5_witness :
  count is_call
    [CallUploadFile a_csv None; UploadSettled a_csv (Some "file-a");
     CallUploadFile b_pdf None]
  = count is_settled
      [CallUploadFile a_csv None; UploadSettled a_csv (Some "file-a");
       CallUploadFile b_pdf None]
    + length [mkInvocation [a_csv; b_pdf] 0 1]
  ∧ (length [mkInvocation [a_csv; b_pdf] 0 1]
     ≤ count is_submit [Submit (Some [a_csv; b_pdf]); Resolve 0 "file-a"])%nat.
Proof.
  destruct (C5_uploads_of_a_batch_are_serial sampleFormat None true)
    as (_ & _ & Hruns).
  apply (Hruns [Submit (Some [a_csv; b_pdf]); Resolve 0 "file-a"]
           {| uploadQueue := [mkItem a_csv 75 Status.processing None;
                              mkItem b_pdf 50 Status.uploading None];
              awaiting := [mkInvocation [a_csv; b_pdf] 0 1];
              timers := [mkTimer 0 a_csv "file-a"];
              trace := [CallUploadFile a_csv None;
                        UploadSettled a_csv (Some "file-a");
                        CallUploadFile b_pdf None] |}).
  reflexivity.
Defined.

(** C6 at the fulfilment of the first of two uploads. *)
Lemma C6_witness :
  file <$> [mkItem a_csv 75 Status.processing None;
            mkItem b_pdf 50 Status.uploading None]
  = file <$> [mkItem a_csv 50 Status.uploading None;
              mkItem b_pdf 0 Status.pending None].
Proof.
  apply (C6_queue_keeps_submission_order sampleFormat None true
           {| uploadQueue := [mkItem a_csv 50 Status.uploading None;
                              mkItem b_pdf 0 Status.pending None];
              awaiting := [mkInvocation [a_csv; b_pdf] 0 0];
              timers := [];
              trace := [CallUploadFile a_csv None] |}
           (Resolve 0 "file-a")
           {| uploadQueue := [mkItem a_csv 75 Status.processing None;
                              mkItem b_pdf 50 Status.uploading None];
              awaiting := [mkInvocation [a_csv; b_pdf] 0 1];
              timers := [mkTimer 0 a_csv "file-a"];
              trace := [CallUploadFile a_csv None;
                        UploadSettled a_csv (Some "file-a");
                        CallUploadFile b_pdf None] |}).
  reflexivity.
Defined.





(** ** The further properties at concrete inputs *)

(** X1 on [archive.tar.gz]: the extension is [.gz], and the verdict is
    that of a file named [gz]. *)
Lemma X1_witness :
  has_dot "gz" = false
  ∧ fileExt (File.mk "archive.tar.gz" 1024) = ".gz"
  ∧ validateFile sampleFormat (File.mk "archive.tar.gz" 1024)
    = validateFile sampleFormat (File.mk "gz" 1024).
Proof.
  split; [reflexivity|].
  destruct (X1_only_the_last_segment_decides sampleFormat
              "archive.tar" "gz" 1024 eq_refl) as (Hext & _ & Hsame).
  split; [exact Hext|exact Hsame].
Defined.

(** X2 on [REPORT.CSV] and [report.csv]. *)
Lemma X2_witness :
  toLowerCase "REPORT.CSV" = toLowerCase "report.csv"
  ∧ validateFile sampleFormat (File.mk "REPORT.CSV" 10240)
    = validateFile sampleFormat (File.mk "report.csv" 10240).
Proof.
  split; [reflexivity|].
  apply (X2_validation_ignores_letter_case sampleFormat
           "REPORT.CSV" "report.csv" 10240).
  reflexivity.
Defined.

(** X3 at the [processing] entry of [report.csv]. *)
Lemma X3_witness :
  progress (mkItem report_csv 75 Status.processing None)
  = status_progress (status (mkItem report_csv 75 Status.processing None))
  ∧ (0 ≤ progress (mkItem report_csv 75 Status.processing None) ≤ 100)%Z.
Proof.
  apply (X3_status_determines_progress sampleFormat None true
           [Submit (Some [report_csv]); Resolve 0 "file-1"]
           {| uploadQueue := [mkItem report_csv 75 Status.processing None];
              awaiting := [];
              timers := [mkTimer 0 report_csv "file-1"];
              trace := [CallUploadFile report_csv None;
                        UploadSettled report_csv (Some "file-1")] |}).
  - reflexivity.
  - apply list_elem_of_here.
Defined.

(** X4 after [handleFiles] on two accepted files: the awaited upload can
    be fulfilled, and four steps are still to come. *)
Lemma X4_witness :
  is_Some
    (step sampleFormat None true
       {| uploadQueue := [mkItem a_csv 50 Status.uploading None;
                          mkItem b_pdf 0 Status.pending None];
          awaiting := [mkInvocation [a_csv; b_pdf] 0 0];
          timers := [];
          trace := [CallUploadFile a_csv None] |}
       (Resolve 0 "file-a"))
  ∧ pending_work
      {| uploadQueue := [mkItem a_csv 50 Status.uploading None;
                         mkItem b_pdf 0 Status.pending None];
         awaiting := [mkInvocation [a_csv; b_pdf] 0 0];
         timers := [];
         trace := [CallUploadFile a_csv None] |} = 4.
Proof.
  split; [|reflexivity].
  destruct (X4_pending_work_is_enabled_and_decreases sampleFormat None true
              [Submit (Some [a_csv; b_pdf])]
              {| uploadQueue := [mkItem a_csv 50 Status.uploading None;
                                 mkItem b_pdf 0 Status.pending None];
                 awaiting := [mkInvocation [a_csv; b_pdf] 0 0];
                 timers := [];
                 trace := [CallUploadFile a_csv None] |}
              eq_refl) as (Henabled & _).
  apply (Henabled 0 "file-a" network_error). simpl. lia.
Defined.

(** X5 while the second of two uploads is awaited and the timer of the
    first is pending: the [uploading] entry of [b.pdf] at position 1 is
    that of the suspended invocation. *)
Lemma X5_witness :
  (∃ n inv,
     [mkInvocation [a_csv; b_pdf] 0 1] !! n = Some inv
     ∧ (inv_base inv + inv_i inv ≤ 1)%nat
     ∧ inv_validFiles inv !! (1 - inv_base inv) = Some b_pdf
     ∧ Status.uploading
       = (if decide (1 = inv_base inv + inv_i inv)
          then Status.uploading else Status.pending))
  ∨ (∃ n tm,
       [mkTimer 0 a_csv "file-a"] !! n = Some tm ∧ tm_queueIndex tm = 1
       ∧ tm_file tm = b_pdf ∧ Status.uploading = Status.processing).
Proof.
  destruct (X5_unfinished_entries_have_a_transfer_under_way
              sampleFormat None true
              [Submit (Some [a_csv; b_pdf]); Resolve 0 "file-a"]
              {| uploadQueue := [mkItem a_csv 75 Status.processing None;
                                 mkItem b_pdf 50 Status.uploading None];
                 awaiting := [mkInvocation [a_csv; b_pdf] 0 1];
                 timers := [mkTimer 0 a_csv "file-a"];
                 trace := [CallUploadFile a_csv None;
                           UploadSettled a_csv (Some "file-a");
                           CallUploadFile b_pdf None] |}
              eq_refl eq_refl) as [Hunfinished _].
  apply (Hunfinished 1 (mkItem b_pdf 50 Status.uploading None));
    reflexivity.
Defined.

(** X6 after the whole flow of [report.csv]: one upload fulfilled, one
    call of [onUploadComplete], no timer left. *)
Lemma X6_witness :
  count is_notify
    [CallUploadFile report_csv None;
     UploadSettled report_csv (Some "file-1");
     CallOnUploadComplete "file-1"]
  + length (@nil Timer)
  = count is_fulfilled
      [CallUploadFile report_csv None;
       UploadSettled report_csv (Some "file-1");
       CallOnUploadComplete "file-1"].
Proof.
  destruct (X6_one_callback_per_fulfilled_upload sampleFormat None true
              [Submit (Some [report_csv]); Resolve 0 "file-1"; Fire 0]
              {| uploadQueue := [mkItem report_csv 100 Status.completed None];
                 awaiting := [];
                 timers := [];
                 trace := [CallUploadFile report_csv None;
                           UploadSettled report_csv (Some "file-1");
                           CallOnUploadComplete "file-1"] |}
              eq_refl) as [_ Hcount].
  exact Hcount.
Defined.

(** X7: the only row is dismissed while its upload is awaited; the
    fulfilment finds no entry at position 0 and registers its timer all
    the same. *)
Lemma X7_witness :
  uploadQueue
    {| uploadQueue := [];
       awaiting := [];
       timers := [mkTimer 0 a_csv "file-a"];
       trace := [CallUploadFile a_csv None;
                 UploadSettled a_csv (Some "file-a")] |}
  = uploadQueue
      {| uploadQueue := [];
         awaiting := [mkInvocation [a_csv] 0 0];
         timers := [];
         trace := [CallUploadFile a_csv None] |}
  ∧ ∃ f, [mkTimer 0 a_csv "file-a"] = [] ++ [mkTimer 0 f "file-a"].
Proof.
  apply (X7_updates_past_the_end_are_dropped sampleFormat None true
           {| uploadQueue := [];
              awaiting := [mkInvocation [a_csv] 0 0];
              timers := [];
              trace := [CallUploadFile a_csv None] |}
           (Resolve 0 "file-a")
           {| uploadQueue := [];
              awaiting := [];
              timers := [mkTimer 0 a_csv "file-a"];
              trace := [CallUploadFile a_csv None;
                        UploadSettled a_csv (Some "file-a")] |}
           0).
  - reflexivity.
  - reflexivity.
  - simpl. lia.
Defined.

(** X8 on a queue of three rows: the last and the first are dismissed, in
    either order. *)
Lemma X8_witness :
  removeFromQueue 0
    (removeFromQueue 2
       [mkItem a_csv 100 Status.completed None;
        mkItem malware_exe 0 Status.error (Some type_error);
        mkItem b_pdf 50 Status.uploading None])
  = removeFromQueue (2 - 1)
      (removeFromQueue 0
         [mkItem a_csv 100 Status.completed None;
          mkItem malware_exe 0 Status.error (Some type_error);
          mkItem b_pdf 50 Status.uploading None]).
Proof.
  destruct (X8_dismissals_commute_up_to_the_shift 0 2 0
              [mkItem a_csv 100 Status.completed None;
               mkItem malware_exe 0 Status.error (Some type_error);
               mkItem b_pdf 50 Status.uploading None]) as [Hcomm _].
  apply Hcomm. lia.
Defined.

(** X9 at the row of a failed upload: the message, no progress bar. *)
Lemma X9_witness :
  row_progress
    (render_row sampleFormat
       (mkItem report_csv 0 Status.error (Some "Network Error"))) = None
  ∧ status (mkItem report_csv 0 Status.error (Some "Network Error"))
    = Status.error.
Proof.
  destruct (X9_a_row_never_shows_bar_and_message sampleFormat None true
              (mkItem report_csv 0 Status.error (Some "Network Error")))
    as (_ & _ & Hclean).
  destruct (Hclean
              [Submit (Some [report_csv]); Reject 0 network_error]
              {| uploadQueue :=
                   [mkItem report_csv 0 Status.error (Some "Network Error")];
                 awaiting := [];
                 timers := [];
                 trace := [CallUploadFile report_csv None;
                           UploadSettled report_csv None] |})
    as (_ & Hmessage).
  - reflexivity.
  - reflexivity.
  - apply list_elem_of_here.
  - apply Hmessage. simpl. eauto.
Defined.

(** Why X9 leaves mixed batches out: in the batch [malware.exe,
    report.csv] the row of [malware.exe] shows the progress bar together
    with its validation message while [report.csv] is uploaded.  And a
    failure with an empty message leaves a row with neither. *)
Example rows_with_both_and_with_neither :
  (s ← run sampleFormat None true init
         [Submit (Some [malware_exe; report_csv])];
   render_row sampleFormat <$> uploadQueue s !! 0)
  = Some {| row_name := "malware.exe";
            row_size := "50 MB";
            row_badge_classes := ["bg-blue-100 text-blue-700"];
            row_badge_labels := ["⟳ Caricamento..."];
            row_progress := Some 50%Z;
            row_error := Some type_error |}
  ∧ (s ← run sampleFormat None true init
           [Submit (Some [report_csv]); Reject 0 (ThrownError "")];
     render_row sampleFormat <$> uploadQueue s !! 0)
    = Some {| row_name := "report.csv";
              row_size := "50 MB";
              row_badge_classes := ["bg-red-100 text-red-700"];
              row_badge_labels := ["✗ Errore"];
              row_progress := None;
              row_error := None |}.
Proof. split; vm_compute; reflexivity. Qed.

(** X10 when [file-1] is reported twice and [file-2] afterwards: the
    selection of [file-1] is the placeholder of the second report. *)
Lemma X10_witness :
  ("file-1" ∉ [("file-2", "2025-01-01T10:00:03.000Z")].*1)
  ∧ FileMetadata.createdAt <$>
      selectedFile (Some "file-1")
        (uploadedFiles_after
           [("file-1", "2025-01-01T10:00:01.000Z");
            ("file-1", "2025-01-01T10:00:02.000Z");
            ("file-2", "2025-01-01T10:00:03.000Z")])
    = Some "2025-01-01T10:00:02.000Z".
Proof.
  assert ("file-1" ∉ [("file-2", "2025-01-01T10:00:03.000Z")].*1) as Hnew.
  { intros Hin. inversion Hin as [|? ? ? Hin']. inversion Hin'. }
  split; [exact Hnew|].
  destruct (X10_selection_finds_the_latest_placeholder
              [("file-1", "2025-01-01T10:00:01.000Z")]
              "file-1" "2025-01-01T10:00:02.000Z"
              [("file-2", "2025-01-01T10:00:03.000Z")] Hnew)
    as (_ & Hselected & _).
  simpl app in Hselected. rewrite Hselected. reflexivity.
Defined.


Example summary_preview_at_the_limit :
  summary_preview (Some (replicate 100 232%N))
  = Some (replicate 100 232%N)
  ∧ summary_preview (Some (replicate 101 232%N))
    = Some (replicate 100 232%N ++ three_dots).
Proof. split; vm_compute; reflexivity. Qed.

(** X12 on [report.csv]. *)
Lemma X12_witness :
  validateFile sampleFormat report_csv = None
  ∧ is_Some (FILE_EXTENSION_MAP !! fileExt report_csv).
Proof.
  split; [reflexivity|].
  destruct (X12_accepted_files_have_a_category sampleFormat report_csv
              eq_refl) as [Hcategory _].
  exact Hcategory.
Defined.

(** X13 after a mixed batch and the failure of its one upload: both
    candidates are in the queue, in the order of the batch. *)
Lemma X13_witness :
  file <$> [mkItem malware_exe 0 Status.error (Some "Network Error");
            mkItem report_csv 0 Status.pending None]
  = submitted [Submit (Some [malware_exe; report_csv]);
               Reject 0 network_error].
Proof.
  destruct (X13_queue_is_what_was_submitted_in_order sampleFormat None true
              [Submit (Some [malware_exe; report_csv]);
               Reject 0 network_error]
              {| uploadQueue :=
                   [mkItem malware_exe 0 Status.error (Some "Network Error");
                    mkItem report_csv 0 Status.pending None];
                 awaiting := [];
                 timers := [];
                 trace := [CallUploadFile report_csv None;
                           UploadSettled report_csv None] |}
              eq_refl) as [_ Hall].
  apply Hall. reflexivity.
Defined.

(** X14 when the selected project is the empty string: the upload is
    called without a project. *)
Lemma X14_witness :
  None = uploader_projectId (Some "")
  ∧ None ≠ Some ""
  ∧ (@None string = None ↔ Some "" = @None string ∨ Some "" = Some "").
Proof.
  apply (X14_uploads_are_made_for_the_selected_project sampleFormat
           (Some "") true
           [Submit (Some [report_csv])]
           {| uploadQueue := [mkItem report_csv 50 Status.uploading None];
              awaiting := [mkInvocation [report_csv] 0 0];
              timers := [];
              trace := [CallUploadFile report_csv None] |}
           report_csv None).
  - reflexivity.
  - apply list_elem_of_here.
Defined.
